(** * Commit-log parsing and PlantUML graph construction ([main.py])

    A shallow embedding of [GitVisualizer.get_commits] (the loop over the
    lines of the [git log] output) and of [GitVisualizer.build_graph],
    with the properties of the parser and of the graph builder proved
    over it.

    Python strings are modelled as [string], i.e. as sequences of code
    points below 256.  The two dictionaries of [build_graph] are used
    through an interface ([Dict]) offering exactly the operations the
    code performs on them: [k in d], [d[k]], [d[k] = v] and [len(d)]. *)

From Stdlib Require Import Ascii String.
From stdpp Require Import gmap strings pretty list fin_maps.

(** ** Exceptions *)

Inductive exn := TypeError | ValueError | KeyError.

Inductive result (A : Type) :=
  | Ok (a : A)
  | Raise (e : exn).
Arguments Ok {A} a.
Arguments Raise {A} e.

Definition bind {A B} (r : result A) (k : A → result B) : result B :=
  match r with
  | Ok a => k a
  | Raise e => Raise e
  end.

Notation "x ←! r ; k" := (bind r (λ x, k))
  (at level 20, r at level 100, k at level 200, right associativity,
   format "x  ←!  r ;  '/' k").
Notation "' pat ←! r ; k" := (bind r (λ pat, k))
  (at level 20, pat pattern, r at level 100, k at level 200,
   right associativity, only parsing).

(** A [for] loop whose body may raise. *)
Fixpoint for_each {A S} (body : S → A → result S) (xs : list A) (st : S)
  : result S :=
  match xs with
  | [] => Ok st
  | x :: xs' => st' ←! body st x; for_each body xs' st'
  end.

(** ** The string methods used by the parser *)

Module PyStr.

(** [str.isspace] on one code point below 256: TAB..CR, FS..US, space,
    NEL and NBSP. *)
Definition isspace (c : ascii) : bool :=
  let n := nat_of_ascii c in
  (((9 <=? n) && (n <=? 13)) || ((28 <=? n) && (n <=? 32))
   || (n =? 133) || (n =? 160))%nat.

Fixpoint lstrip (s : string) : string :=
  match s with
  | "" => ""
  | String c s' => if isspace c then lstrip s' else s
  end.

Fixpoint rstrip (s : string) : string :=
  match s with
  | "" => ""
  | String c s' =>
      match rstrip s' with
      | "" => if isspace c then "" else String c ""
      | r => String c r
      end
  end.

(** [s.strip()] *)
Definition strip (s : string) : string := rstrip (lstrip s).

(** [sep in s] for a one-character [sep] *)
Fixpoint contains (sep : ascii) (s : string) : bool :=
  match s with
  | "" => false
  | String c s' => if decide (c = sep) then true else contains sep s'
  end.

(** Puts [c] in front of the first field of a split. *)
Definition cons_first (c : ascii) (fields : list string) : list string :=
  match fields with
  | [] => [String c ""]
  | w :: ws => String c w :: ws
  end.

(** [s.split(sep)] for a one-character [sep] *)
Fixpoint split (sep : ascii) (s : string) : list string :=
  match s with
  | "" => [""]
  | String c s' =>
      if decide (c = sep) then "" :: split sep s'
      else cons_first c (split sep s')
  end.

(** [s.split(sep, maxsplit)] for a one-character [sep] *)
Fixpoint split_max (sep : ascii) (s : string) (maxsplit : nat)
  : list string :=
  match s with
  | "" => [""]
  | String c s' =>
      match maxsplit with
      | 0 => [s]
      | S n =>
          if decide (c = sep) then "" :: split_max sep s' n
          else cons_first c (split_max sep s' maxsplit)
      end
  end.

(** [s.split()]: the maximal runs of non-whitespace characters *)
Fixpoint split_ws (s : string) : list string :=
  match s with
  | "" => []
  | String c s' =>
      if isspace c then split_ws s'
      else
        match s' with
        | "" => [String c ""]
        | String c' _ =>
            if isspace c' then String c "" :: split_ws s'
            else cons_first c (split_ws s')
        end
  end.

(** [sep.join(ws)] *)
Definition join (sep : string) (ws : list string) : string :=
  String.concat sep ws.

(** No character of [s] is [sep]. *)
Definition free_of (sep : ascii) (s : string) : Prop :=
  contains sep s = false.

(** A token: non-empty, without whitespace. *)
Fixpoint no_space (s : string) : bool :=
  match s with
  | "" => true
  | String c s' => negb (isspace c) && no_space s'
  end.

Definition token (s : string) : Prop := s ≠ "" ∧ no_space s = true.

End PyStr.

(** ** Commit records and [get_commits] *)

Record Commit := mkCommit {
  hash : string;
  message : string;
  parents : list string;
  files : list string;
}.

Global Instance Commit_eq_dec : EqDecision Commit.
Proof. solve_decision. Defined.

Definition nl : string := String "010"%char "".
Definition bar : ascii := "|"%char.
Definition newline : ascii := "010"%char.

(** [commit_hash, message, parent_hashes = parts if len(parts) == 3
    else ( *parts, '')]: unpacking into three names raises [ValueError]
    unless [parts] has two or three elements. *)
Definition unpack_parts (parts : list string)
  : result (string * string * string) :=
  match parts with
  | [a; b; c] => Ok (a, b, c)
  | [a; b] => Ok (a, b, "")
  | _ => Raise ValueError
  end.

(** The body of the [if '|' in line] branch that builds the new record. *)
Definition parse_header (line : string) : result Commit :=
  let parts := PyStr.split_max bar line 2 in
  '(commit_hash, msg, parent_hashes) ←! unpack_parts parts;
  let parents := PyStr.split_ws (PyStr.strip parent_hashes) in
  Ok {| hash := commit_hash; message := msg; parents := parents;
        files := [] |}.

(** The variables [commits] and [current_commit] of the scanning loop. *)
Record ScanState := mkScan {
  commits : list Commit;
  current_commit : option Commit;
}.

Definition scan_init : ScanState :=
  {| commits := []; current_commit := None |}.

(** [if current_commit: commits.append(current_commit)] *)
Definition flush (st : ScanState) : list Commit :=
  match current_commit st with
  | Some c => commits st ++ [c]
  | None => commits st
  end.

Definition add_file_line (c : Commit) (line : string) : Commit :=
  {| hash := hash c; message := message c; parents := parents c;
     files := files c ++ [PyStr.strip line] |}.

(** One iteration of the loop over the lines. *)
Definition scan_line (st : ScanState) (line : string) : result ScanState :=
  if decide (line = "") then Ok st
  else if PyStr.contains bar line then
    let commits' := flush st in
    c ←! parse_header line;
    Ok {| commits := commits'; current_commit := Some c |}
  else
    match current_commit st with
    | None => Raise TypeError
    | Some c =>
        Ok {| commits := commits st;
              current_commit := Some (add_file_line c line) |}
    end.

(** [get_commits], as a function of the text printed by [git log]. *)
Definition get_commits (stdout : string) : result (list Commit) :=
  st ←! for_each scan_line (PyStr.split newline (PyStr.strip stdout))
          scan_init;
  Ok (flush st).

(** ** Dictionaries

    [build_graph] keeps two [dict]s, [commit_defs] and [file_defs].  It
    never iterates over them: it only tests membership, reads and writes
    single keys and takes [len].  [Dict] is that interface and
    [DictLaws] what every Python [dict] guarantees about it, whatever the
    layout of its hash table. *)

Class Dict (D : Type) := {
  d_empty : D;
  d_get : string → D → option string;
  d_set : string → string → D → D;
  d_len : D → nat;
}.

Class DictLaws (D : Type) `{Dict D} : Prop := {
  d_get_empty k : d_get k d_empty = None;
  d_get_set k v d k' :
    d_get k' (d_set k v d) = if decide (k = k') then Some v else d_get k' d;
  d_len_empty : d_len d_empty = 0;
  d_len_set k v d :
    d_len (d_set k v d) =
    match d_get k d with Some _ => d_len d | None => S (d_len d) end;
}.

(** [k in d] *)
Definition d_mem `{Dict D} (k : string) (d : D) : bool :=
  match d_get k d with Some _ => true | None => false end.

(** [d[k]] *)
Definition d_item `{Dict D} (k : string) (d : D) : result string :=
  match d_get k d with Some v => Ok v | None => Raise KeyError end.

(** The canonical dictionary: a finite map. *)
Global Instance gmap_dict : Dict (gmap string string) := {|
  d_empty := ∅;
  d_get k d := d !! k;
  d_set k v d := <[k:=v]> d;
  d_len d := size d;
|}.

(** An insertion-ordered dictionary, as CPython lays it out: writing an
    existing key keeps its position, a new key goes to the end. *)
Fixpoint alist_get (k : string) (d : list (string * string))
  : option string :=
  match d with
  | [] => None
  | (k', v) :: d' => if decide (k' = k) then Some v else alist_get k d'
  end.

Fixpoint alist_set (k v : string) (d : list (string * string))
  : list (string * string) :=
  match d with
  | [] => [(k, v)]
  | (k', v') :: d' =>
      if decide (k' = k) then (k, v) :: d' else (k', v') :: alist_set k v d'
  end.

Definition alist_dict : Dict (list (string * string)) := {|
  d_empty := [];
  d_get := alist_get;
  d_set := alist_set;
  d_len := length;
|}.

(** ** The lines of the diagram

    [graph] is a list of lines.  Each line is kept together with the
    statement that appended it; [render] gives its text. *)

Inductive Line :=
  | Raw (text : string)
  | CommitDecl (msg commit_id : string)
  | FileDecl (file_path file_id : string)
  | Touched (commit_id file_id : string)
  | Derives (parent_id child_id : string).

Global Instance Line_eq_dec : EqDecision Line.
Proof. solve_decision. Defined.

Definition dq : string := String "034"%char "".

Definition render (l : Line) : string :=
  match l with
  | Raw text => text
  | CommitDecl msg commit_id =>
      "rectangle " +:+ dq +:+ msg +:+ dq +:+ " as " +:+ commit_id
  | FileDecl file_path file_id =>
      "rectangle " +:+ dq +:+ file_path +:+ dq +:+ " as " +:+ file_id
  | Touched commit_id file_id => commit_id +:+ " --> " +:+ file_id
  | Derives parent_id child_id => parent_id +:+ " <|-- " +:+ child_id
  end.

(** [f'Commit{n}'] and [f'File{n}'] *)
Definition commit_name (n : nat) : string := "Commit" +:+ pretty n.
Definition file_name (n : nat) : string := "File" +:+ pretty n.

Definition preamble : list Line :=
  [Raw "@startuml"; Raw "skinparam rectangle {";
   Raw "   BackgroundColor #FDF6E3"; Raw "}"].

(** ** [build_graph] *)

Record BuildState (D : Type) := mkBuild {
  graph : list Line;
  commit_defs : D;
  file_defs : D;
}.
Arguments mkBuild {D} _ _ _.
Arguments graph {D} _.
Arguments commit_defs {D} _.
Arguments file_defs {D} _.

Section build.
Context {D : Type} `{Dict D}.

(** [graph.append(line)] *)
Definition emit (l : Line) (st : BuildState D) : BuildState D :=
  {| graph := graph st ++ [l]; commit_defs := commit_defs st;
     file_defs := file_defs st |}.

Definition build_init : BuildState D :=
  {| graph := preamble; commit_defs := d_empty; file_defs := d_empty |}.

(** The body of [for file_path in commit['files']]. *)
Definition add_file (commit_id : string) (st : BuildState D)
    (file_path : string) : result (BuildState D) :=
  let st1 :=
    if d_mem file_path (file_defs st) then st
    else
      let file_id := file_name (d_len (file_defs st) + 1) in
      emit (FileDecl file_path file_id)
        {| graph := graph st; commit_defs := commit_defs st;
           file_defs := d_set file_path file_id (file_defs st) |} in
  file_id ←! d_item file_path (file_defs st1);
  Ok (emit (Touched commit_id file_id) st1).

(** The first loop, [for idx, commit in enumerate(reversed(commits))],
    from position [idx] on. *)
Fixpoint assign_nodes (idx : nat) (cs : list Commit) (st : BuildState D)
  : result (BuildState D) :=
  match cs with
  | [] => Ok st
  | commit :: cs' =>
      let commit_id := commit_name (idx + 1) in
      let st1 :=
        emit (CommitDecl (message commit) commit_id)
          {| graph := graph st;
             commit_defs := d_set (hash commit) commit_id (commit_defs st);
             file_defs := file_defs st |} in
      st2 ←! for_each (add_file commit_id) (files commit) st1;
      assign_nodes (S idx) cs' st2
  end.

(** The body of [for parent_hash in commit['parents']]. *)
Definition add_parent (child_id : string) (st : BuildState D)
    (parent_hash : string) : result (BuildState D) :=
  if d_mem parent_hash (commit_defs st) then
    parent_id ←! d_item parent_hash (commit_defs st);
    Ok (emit (Derives parent_id child_id) st)
  else Ok st.

(** The body of the second [for commit in reversed(commits)]. *)
Definition link_commit (st : BuildState D) (commit : Commit)
  : result (BuildState D) :=
  child_id ←! d_item (hash commit) (commit_defs st);
  for_each (add_parent child_id) (parents commit) st.

(** [build_graph] up to and including [graph.append('@enduml')]. *)
Definition build_state (commits : list Commit) : result (BuildState D) :=
  st1 ←! assign_nodes 0 (rev commits) build_init;
  st2 ←! for_each link_commit (rev commits) st1;
  Ok (emit (Raw "@enduml") st2).

Definition build_graph (commits : list Commit) : result string :=
  st ←! build_state commits;
  Ok (PyStr.join nl (render <$> graph st)).

End build.

(** ** List-level description of what [build_graph] emits

    The functions below describe the output of the two loops without
    any dictionary: positions in lists take the place of the lookups. *)

(** Position of the first occurrence of [x]. *)
Fixpoint index_of (x : string) (l : list string) : option nat :=
  match l with
  | [] => None
  | y :: l' => if decide (y = x) then Some 0 else S <$> index_of x l'
  end.

(** The distinct paths met so far, in first-seen order. *)
Definition see (seen : list string) (f : string) : list string :=
  if decide (f ∈ seen) then seen else seen ++ [f].

Definition see_all (seen fs : list string) : list string := foldl see seen fs.

Definition all_files (l : list Commit) : list string := l ≫= files.

(** The distinct paths of [commits] in the order the first loop meets
    them. *)
Definition first_seen (commits : list Commit) : list string :=
  see_all [] (all_files (rev commits)).

(** Index of the first record of [cs] with hash [h]. *)
Fixpoint first_index (h : string) (cs : list Commit) : option nat :=
  match cs with
  | [] => None
  | c :: cs' => if decide (hash c = h) then Some 0 else S <$> first_index h cs'
  end.

(** Index of the last record of [l] with hash [h]. *)
Fixpoint last_index (h : string) (l : list Commit) : option nat :=
  match l with
  | [] => None
  | c :: l' =>
      match last_index h l' with
      | Some j => Some (S j)
      | None => if decide (hash c = h) then Some 0 else None
      end
  end.

(** The identifier declared for the record at index [i] of [commits]:
    it is visited at position [length commits - 1 - i] of the reversed
    list. *)
Definition node_at (commits : list Commit) (i : nat) : string :=
  commit_name (length commits - i).

(** The identifier a hash resolves to once the first loop is over. *)
Definition node_of (commits : list Commit) (h : string) : option string :=
  node_at commits <$> first_index h commits.

(** The identifier of the node of a file path. *)
Definition file_node (commits : list Commit) (f : string) : option string :=
  (λ i, file_name (i + 1)) <$> index_of f (first_seen commits).

(** Lines of the inner loop of the first pass. *)
Fixpoint file_lines (commit_id : string) (seen fs : list string)
  : list Line :=
  match fs with
  | [] => []
  | f :: fs' =>
      match index_of f seen with
      | Some i =>
          Touched commit_id (file_name (i + 1))
          :: file_lines commit_id seen fs'
      | None =>
          FileDecl f (file_name (length seen + 1))
          :: Touched commit_id (file_name (length seen + 1))
          :: file_lines commit_id (seen ++ [f]) fs'
      end
  end.

(** Lines of the first pass over [l], visited from position [idx] on. *)
Fixpoint node_lines (idx : nat) (l : list Commit) (seen : list string)
  : list Line :=
  match l with
  | [] => []
  | c :: l' =>
      CommitDecl (message c) (commit_name (idx + 1))
      :: file_lines (commit_name (idx + 1)) seen (files c)
      ++ node_lines (S idx) l' (see_all seen (files c))
  end.

(** Lines of the second pass over [l], for a resolution [ids] of hashes
    to identifiers. *)
Definition derive_line (ids : string → option string) (c : Commit)
    (p : string) : list Line :=
  match ids p, ids (hash c) with
  | Some parent_id, Some child_id => [Derives parent_id child_id]
  | _, _ => []
  end.

Definition derive_lines (ids : string → option string) (l : list Commit)
  : list Line :=
  c ← l; p ← parents c; derive_line ids c p.

(** ** Reading the output *)

Definition is_commit_decl (l : Line) : Prop :=
  match l with CommitDecl _ _ => True | _ => False end.
Definition is_file_decl (l : Line) : Prop :=
  match l with FileDecl _ _ => True | _ => False end.
Definition is_touched (l : Line) : Prop :=
  match l with Touched _ _ => True | _ => False end.
Definition is_derives (l : Line) : Prop :=
  match l with Derives _ _ => True | _ => False end.

(** [l] declares the node of path [f]. *)
Definition declares (f : string) (l : Line) : Prop :=
  match l with FileDecl p _ => p = f | _ => False end.

(** [l] is a touched edge into the node [file_id]. *)
Definition touches (file_id : string) (l : Line) : Prop :=
  match l with Touched _ id => id = file_id | _ => False end.

Global Instance is_commit_decl_dec l : Decision (is_commit_decl l).
Proof. destruct l; simpl; apply _. Defined.
Global Instance is_file_decl_dec l : Decision (is_file_decl l).
Proof. destruct l; simpl; apply _. Defined.
Global Instance is_touched_dec l : Decision (is_touched l).
Proof. destruct l; simpl; apply _. Defined.
Global Instance is_derives_dec l : Decision (is_derives l).
Proof. destruct l; simpl; apply _. Defined.
Global Instance declares_dec f l : Decision (declares f l).
Proof. destruct l; simpl; apply _. Defined.
Global Instance touches_dec fid l : Decision (touches fid l).
Proof. destruct l; simpl; apply _. Defined.

(** Number of entries equal to [f] in the file lists of [cs]. *)
Definition occurrences (f : string) (cs : list Commit) : nat :=
  length (filter (λ g, g = f) (all_files cs)).

(** Number of records of [cs] whose file list contains [f]. *)
Definition commits_touching (f : string) (cs : list Commit) : nat :=
  length (filter (λ c, f ∈ files c) cs).

(** Re-joining the three fields of a record into a header line. *)
Definition rejoin (c : Commit) : string :=
  hash c +:+ String bar (message c +:+ String bar (PyStr.join " " (parents c))).

(** The identifier a hash resolves to, for a hash that is known. *)
Definition node_id (commits : list Commit) (h : string) : string :=
  default "" (node_of commits h).

(** The derives edges, pair by pair: one edge for each parent entry
    whose hash is the hash of some record, none for the others. *)
Definition derives_of (commits : list Commit) : list Line :=
  c ← rev commits; p ← parents c;
  if decide (p ∈ hash <$> commits)
  then [Derives (node_id commits p) (node_id commits (hash c))]
  else [].

(** [c] with [fs] appended to its file list. *)
Definition with_files (c : Commit) (fs : list string) : Commit :=
  {| hash := hash c; message := message c; parents := parents c;
     files := files c ++ fs |}.

(** The dictionary type the theorems on [build_graph] are stated for. *)
Abbreviation dict := (gmap string string).

(** [file_defs] holds exactly the paths of [seen], numbered in order. *)
Definition files_rel `{Dict D} (fd : D) (seen : list string) : Prop :=
  (∀ f, d_get f fd = (λ i, file_name (i + 1)) <$> index_of f seen)
  ∧ d_len fd = length seen.

(** The scenario of the specification. *)
Definition scenario_text : string :=
  "a1|Initial commit|" +:+ nl +:+ "file1.txt" +:+ nl +:+
  "a2|Add feature|a1" +:+ nl +:+ "file2.txt" +:+ nl +:+ "file1.txt".

Definition scenario_commits : list Commit :=
  [ mkCommit "a1" "Initial commit" [] ["file1.txt"];
    mkCommit "a2" "Add feature" ["a1"] ["file2.txt"; "file1.txt"] ].

(** ** The whole run

    [run] hands the commits of [get_commits] to [build_graph] and the
    text it returns to [save_output]; [run] below is the text that is
    written. *)
Definition run `{Dict D} (stdout : string) : result string :=
  commits ←! get_commits stdout;
  build_graph (D:=D) commits.

(** ** Reading the log text *)

(** The lines the scanning loop goes through. *)
Definition log_lines (stdout : string) : list string :=
  PyStr.split newline (PyStr.strip stdout).

(** The lines taken as headers, and the lines taken as file paths. *)
Definition header_lines (ls : list string) : list string :=
  filter (λ l, PyStr.contains bar l = true) ls.

Definition path_lines (ls : list string) : list string :=
  filter (λ l, l ≠ "" ∧ PyStr.contains bar l = false) ls.

(** The fields of a record that come from its header line. *)
Definition header_of (c : Commit) : Commit :=
  {| hash := hash c; message := message c; parents := parents c;
     files := [] |}.

(** ** Reading the nodes and edges *)

(** The identifier a line declares. *)
Definition decl_id (l : Line) : option string :=
  match l with
  | CommitDecl _ id | FileDecl _ id => Some id
  | _ => None
  end.

(** The identifier of the node of a path that occurs in [commits]. *)
Definition file_id (commits : list Commit) (f : string) : string :=
  default "" (file_node commits f).

(** The touched edges, record by record in visiting order and, for each
    record, file by file. *)
Definition touched_of (commits : list Commit) : list Line :=
  mjoin (imap (λ j c,
                 (λ f, Touched (commit_name (j + 1)) (file_id commits f))
                 <$> files c)
              (rev commits)).

(** Goes through the lines with the identifiers declared so far; fails
    on an edge one end of which is not declared yet. *)
Fixpoint scope_check (declared : list string) (g : list Line)
  : option (list string) :=
  match g with
  | [] => Some declared
  | Raw _ :: g' => scope_check declared g'
  | CommitDecl _ id :: g' | FileDecl _ id :: g' =>
      scope_check (id :: declared) g'
  | Touched a b :: g' | Derives a b :: g' =>
      if decide (a ∈ declared ∧ b ∈ declared) then scope_check declared g'
      else None
  end.

(** * Properties of the parser *)

Section string_lemmas.
Import PyStr.

Lemma app_String c s t : String c s +:+ t = String c (s +:+ t).
Proof. done. Qed.

Lemma split_max_0 sep s : split_max sep s 0 = [s].
Proof. by destruct s. Qed.

Lemma split_max_free sep a n : free_of sep a → split_max sep a n = [a].
Proof.
  unfold free_of. induction a as [|c a IH]; intros Hfree; [done|].
  simpl in *. destruct n; [done|].
  destruct (decide (c = sep)); [done|]. by rewrite IH.
Qed.

Lemma split_max_sep sep a rest n :
  free_of sep a →
  split_max sep (a +:+ String sep rest) (S n) = a :: split_max sep rest n.
Proof.
  unfold free_of. induction a as [|c a IH]; intros Hfree; simpl in *.
  - by rewrite decide_True.
  - destruct (decide (c = sep)); [done|]. by rewrite IH.
Qed.

Lemma split_max_length sep s n :
  1 ≤ length (split_max sep s n) ≤ S n.
Proof.
  revert n. induction s as [|c s IH]; intros n; simpl; [lia|].
  destruct n; simpl; [lia|].
  destruct (decide (c = sep)); simpl.
  - specialize (IH n). lia.
  - specialize (IH (S n)).
    destruct (split_max sep s (S n)); simpl in *; lia.
Qed.

Lemma split_max_contains sep s n :
  contains sep s = true →
  ∃ a rest, split_max sep s (S n) = a :: split_max sep rest n.
Proof.
  induction s as [|c s IH]; simpl; [done|].
  destruct (decide (c = sep)); intros Hc.
  - by exists "", s.
  - destruct (IH Hc) as (a & rest & ->). by exists (String c a), rest.
Qed.

Lemma rstrip_head s c r : rstrip s = String c r → ∃ s', s = String c s'.
Proof.
  destruct s as [|c0 s]; simpl; [done|].
  destruct (rstrip s); [destruct (isspace c0)|]; naive_solver.
Qed.

Lemma split_ws_lstrip s : split_ws (lstrip s) = split_ws s.
Proof.
  induction s as [|c s IH]; [done|]. simpl lstrip.
  destruct (isspace c) eqn:Hc; [|done]. simpl. by rewrite Hc.
Qed.

Lemma split_ws_rstrip s : split_ws (rstrip s) = split_ws s.
Proof.
  induction s as [|c s IH]; [done|]. simpl rstrip.
  destruct (rstrip s) as [|c2 r2] eqn:Hr.
  - simpl in IH. simpl split_ws at 2.
    destruct (isspace c) eqn:Hc; [done|]. simpl. rewrite Hc.
    destruct s as [|c' s']; [done|]. rewrite <-IH.
    by destruct (isspace c').
  - destruct (rstrip_head _ _ _ Hr) as [s' ->].
    remember (String c2 s') as t. remember (String c2 r2) as u.
    simpl. subst t u. by rewrite IH.
Qed.

Lemma split_ws_strip s : split_ws (strip s) = split_ws s.
Proof. unfold strip. by rewrite split_ws_rstrip, split_ws_lstrip. Qed.

Lemma split_ws_cons2 c c' s :
  split_ws (String c (String c' s)) =
  if isspace c then split_ws (String c' s)
  else if isspace c' then String c "" :: split_ws (String c' s)
       else cons_first c (split_ws (String c' s)).
Proof. done. Qed.

Lemma isspace_space : isspace " " = true.
Proof. done. Qed.

Lemma split_ws_token p : token p → split_ws p = [p].
Proof.
  intros [Hne Hns]. induction p as [|c p IH]; [done|].
  simpl in Hns. apply andb_true_iff in Hns as [Hc Hns].
  apply negb_true_iff in Hc. simpl. rewrite Hc.
  destruct p as [|c' p']; [done|].
  rewrite IH by done. simpl in Hns.
  apply andb_true_iff in Hns as [Hc' _]. apply negb_true_iff in Hc'.
  by rewrite Hc'.
Qed.

Lemma split_ws_token_sep p rest :
  token p → split_ws (p +:+ String " " rest) = p :: split_ws rest.
Proof.
  intros [Hne Hns]. induction p as [|c p IH]; [done|].
  simpl in Hns. apply andb_true_iff in Hns as [Hc Hns].
  apply negb_true_iff in Hc.
  destruct p as [|c' p'].
  - simpl. by rewrite Hc.
  - specialize (IH ltac:(done) Hns). simpl in Hns.
    apply andb_true_iff in Hns as [Hc' _]. apply negb_true_iff in Hc'.
    rewrite !app_String in *. rewrite split_ws_cons2.
    by rewrite Hc, Hc', IH.
Qed.

Lemma split_ws_join ps :
  Forall token ps → split_ws (join " " ps) = ps.
Proof.
  induction 1 as [|p ps Hp Hps IH]; [done|].
  destruct ps as [|q ps]; [by apply split_ws_token|].
  change (join " " (p :: q :: ps))
    with (p +:+ String " " (join " " (q :: ps))).
  by rewrite split_ws_token_sep, IH.
Qed.

End string_lemmas.

Lemma parse_header_three h m rest :
  PyStr.free_of bar h → PyStr.free_of bar m →
  parse_header (h +:+ String bar (m +:+ String bar rest)) =
  Ok (mkCommit h m (PyStr.split_ws rest) []).
Proof.
  intros Hh Hm. unfold parse_header.
  rewrite split_max_sep, split_max_sep, split_max_0 by done. simpl.
  by rewrite split_ws_strip.
Qed.

Lemma parse_header_two a b :
  PyStr.free_of bar a → PyStr.free_of bar b →
  parse_header (a +:+ String bar b) = Ok (mkCommit a b [] []).
Proof.
  intros Ha Hb. unfold parse_header.
  by rewrite split_max_sep, split_max_free.
Qed.

Lemma parse_header_total line :
  PyStr.contains bar line = true → ∃ c, parse_header line = Ok c.
Proof.
  intros Hc. unfold parse_header.
  destruct (split_max_contains bar line 1 Hc) as (a & rest & ->).
  pose proof (split_max_length bar rest 1) as Hlen.
  destruct (PyStr.split_max bar rest 1) as [|b [|c [|??]]];
    simpl in *; try lia; eauto.
Qed.

(** * The dictionaries satisfy the interface *)

Global Instance gmap_dict_laws : DictLaws dict.
Proof.
  split; simpl.
  - intros k. apply lookup_empty.
  - intros k v d k'. apply lookup_insert.
  - apply map_size_empty.
  - intros k v d. rewrite map_size_insert. by destruct (d !! k).
Qed.

Lemma alist_dict_laws : @DictLaws (list (string * string)) alist_dict.
Proof.
  split; simpl; try done.
  - intros k v d k'. induction d as [|[k0 v0] d IH]; simpl.
    + done.
    + destruct (decide (k0 = k)) as [->|Hne]; simpl.
      * by destruct (decide (k = k')).
      * rewrite IH. destruct (decide (k0 = k')), (decide (k = k')); congruence.
  - intros k v d. induction d as [|[k0 v0] d IH]; simpl; [done|].
    destruct (decide (k0 = k)); simpl; [done|].
    rewrite IH. by destruct (alist_get k d).
Qed.

(** * Generic lemmas on loops *)

Lemma for_each_app {A S} (body : S → A → result S) xs ys st :
  for_each body (xs ++ ys) st =
  (st' ←! for_each body xs st; for_each body ys st').
Proof.
  revert st. induction xs as [|x xs IH]; intros st; simpl; [done|].
  destruct (body st x); simpl; [apply IH|done].
Qed.

(** * Positions in lists *)

Lemma index_of_None x l : index_of x l = None ↔ x ∉ l.
Proof.
  induction l as [|y l IH]; simpl.
  - split; [intros _; apply not_elem_of_nil|done].
  - rewrite not_elem_of_cons. destruct (decide (y = x)) as [->|Hne].
    + split; [done|]. by intros [? _].
    + destruct (index_of x l); simpl; split; try done.
      * intros [_ Hx]. by apply IH in Hx.
      * intros _. split; [done|]. by apply IH.
Qed.

Lemma index_of_Some x l : x ∈ l → ∃ i, index_of x l = Some i.
Proof.
  intros Hx. destruct (index_of x l) eqn:Hi; [eauto|].
  by apply index_of_None in Hi.
Qed.

Lemma index_of_lookup x l i : index_of x l = Some i → l !! i = Some x.
Proof.
  revert i. induction l as [|y l IH]; intros i; simpl; [done|].
  destruct (decide (y = x)) as [->|Hne].
  - by intros [= <-].
  - destruct (index_of x l); simpl; [|done]. intros [= <-]. by apply IH.
Qed.

Lemma index_of_inj x y l i :
  index_of x l = Some i → index_of y l = Some i → x = y.
Proof.
  intros Hx%index_of_lookup Hy%index_of_lookup. congruence.
Qed.

Lemma index_of_elem x l i : index_of x l = Some i → x ∈ l.
Proof. intros Hx%index_of_lookup. by eapply list_elem_of_lookup_2. Qed.

Lemma index_of_app x l t :
  index_of x (l ++ t) =
  match index_of x l with
  | Some i => Some i
  | None => (λ i, length l + i) <$> index_of x t
  end.
Proof.
  induction l as [|y l IH]; simpl.
  - by destruct (index_of x t).
  - destruct (decide (y = x)); [done|]. rewrite IH.
    destruct (index_of x l); [done|]. by destruct (index_of x t).
Qed.

Lemma index_of_app_l x l t i :
  index_of x l = Some i → index_of x (l ++ t) = Some i.
Proof. intros Hi. by rewrite index_of_app, Hi. Qed.

Lemma see_all_extends seen fs : ∃ t, see_all seen fs = seen ++ t.
Proof.
  revert seen. induction fs as [|f fs IH]; intros seen; simpl.
  - exists []. by rewrite app_nil_r.
  - destruct (IH (see seen f)) as [t ->]. unfold see.
    destruct (decide (f ∈ seen)); [by exists t|].
    exists (f :: t). by rewrite <-app_assoc.
Qed.

Lemma see_all_app seen fs gs :
  see_all seen (fs ++ gs) = see_all (see_all seen fs) gs.
Proof. apply foldl_app. Qed.

Lemma index_of_see_all x seen fs i :
  index_of x seen = Some i → index_of x (see_all seen fs) = Some i.
Proof.
  intros Hi. destruct (see_all_extends seen fs) as [t ->].
  by apply index_of_app_l.
Qed.

Lemma elem_of_see_all x seen fs :
  x ∈ see_all seen fs ↔ x ∈ seen ∨ x ∈ fs.
Proof.
  revert seen. induction fs as [|f fs IH]; intros seen; simpl.
  - rewrite elem_of_nil. tauto.
  - rewrite IH, elem_of_cons. unfold see.
    destruct (decide (f ∈ seen)).
    + intuition (subst; auto).
    + rewrite elem_of_app, list_elem_of_singleton. intuition (subst; auto).
Qed.

(** The position of [f] right after it has been seen. *)
Lemma index_of_see seen f :
  index_of f (see seen f) =
  Some (default (length seen) (index_of f seen)).
Proof.
  unfold see. destruct (decide (f ∈ seen)) as [Hin|Hnin].
  - destruct (index_of_Some _ _ Hin) as [i Hi]. by rewrite Hi.
  - apply index_of_None in Hnin as Hi. rewrite index_of_app, Hi. simpl.
    rewrite decide_True by done. simpl. f_equal. lia.
Qed.

Lemma first_index_lt h cs i : first_index h cs = Some i → i < length cs.
Proof.
  revert i. induction cs as [|c cs IH]; intros i; simpl; [done|].
  destruct (decide (hash c = h)).
  - intros [= <-]. lia.
  - destruct (first_index h cs); simpl; [|done].
    intros [= <-]. specialize (IH _ eq_refl). lia.
Qed.

Lemma first_index_lookup h cs i :
  first_index h cs = Some i → ∃ c, cs !! i = Some c ∧ hash c = h.
Proof.
  revert i. induction cs as [|c cs IH]; intros i; simpl; [done|].
  destruct (decide (hash c = h)).
  - intros [= <-]. eauto.
  - destruct (first_index h cs); simpl; [|done]. intros [= <-]. eauto.
Qed.

Lemma first_index_first h cs i j c :
  first_index h cs = Some i → cs !! j = Some c → hash c = h → i ≤ j.
Proof.
  revert i j. induction cs as [|c0 cs IH]; intros i j; simpl; [done|].
  destruct (decide (hash c0 = h)).
  - intros [= <-]. lia.
  - destruct (first_index h cs) eqn:Hf; simpl; [|done]. intros [= <-].
    destruct j as [|j]; simpl.
    + intros [= ->]. done.
    + intros Hj Hh. specialize (IH _ _ eq_refl Hj Hh). lia.
Qed.

Lemma first_index_is_Some h cs :
  is_Some (first_index h cs) ↔ h ∈ hash <$> cs.
Proof.
  induction cs as [|c cs IH]; simpl.
  - rewrite elem_of_nil. split; [by intros [??]|done].
  - rewrite elem_of_cons. destruct (decide (hash c = h)) as [->|Hne].
    + split; [by left|by eauto].
    + rewrite <-IH. rewrite fmap_is_Some. intuition congruence.
Qed.

Lemma last_index_app h l1 l2 :
  last_index h (l1 ++ l2) =
  match last_index h l2 with
  | Some j => Some (length l1 + j)
  | None => last_index h l1
  end.
Proof.
  induction l1 as [|c l1 IH]; simpl.
  - by destruct (last_index h l2).
  - rewrite IH. by destruct (last_index h l2).
Qed.

Lemma last_index_rev h cs :
  last_index h (rev cs) = (λ i, length cs - 1 - i) <$> first_index h cs.
Proof.
  induction cs as [|c cs IH]; simpl; [done|].
  rewrite last_index_app. simpl.
  destruct (decide (hash c = h)); simpl.
  - rewrite length_rev. f_equal. lia.
  - rewrite IH. destruct (first_index h cs); simpl; [|done]. f_equal. lia.
Qed.

(** * [build_graph] against its list-level description *)

Section refinement.
Context {D : Type} `{DictLaws D}.

Implicit Types (st : BuildState D) (seen fs : list string).

Lemma files_rel_empty : files_rel (d_empty : D) [].
Proof. split; [intros f; apply d_get_empty|apply d_len_empty]. Qed.

Lemma files_rel_see fd seen f :
  files_rel fd seen → index_of f seen = None →
  files_rel (d_set f (file_name (d_len fd + 1)) fd) (seen ++ [f]).
Proof.
  intros [Hget Hlen] Hi. split.
  - intros g. rewrite d_get_set, index_of_app, Hget, Hlen. simpl.
    destruct (decide (f = g)) as [<-|Hne].
    + rewrite Hi. simpl. do 2 f_equal. lia.
    + by destruct (index_of g seen).
  - rewrite d_len_set, Hget, Hi, length_app. simpl. lia.
Qed.

Lemma add_file_spec cid st f seen :
  files_rel (file_defs st) seen →
  ∃ st', add_file cid st f = Ok st'
    ∧ graph st' = graph st ++ file_lines cid seen [f]
    ∧ commit_defs st' = commit_defs st
    ∧ files_rel (file_defs st') (see seen f).
Proof.
  intros Hrel. pose proof Hrel as [Hget Hlen].
  unfold add_file, d_mem, d_item, see. simpl file_lines.
  rewrite (Hget f). destruct (index_of f seen) as [i|] eqn:Hi; simpl.
  - rewrite (Hget f), Hi. simpl. eexists. split; [done|].
    rewrite decide_True by by eapply index_of_elem. done.
  - rewrite d_get_set, decide_True by done. simpl.
    eexists. split; [done|]. simpl.
    apply index_of_None in Hi as Hnin. rewrite decide_False by done.
    rewrite <-app_assoc, Hlen. split_and!; [done|done|].
    rewrite <-Hlen. by apply files_rel_see.
Qed.

Lemma file_lines_app cid seen fs gs :
  file_lines cid seen (fs ++ gs) =
  file_lines cid seen fs ++ file_lines cid (see_all seen fs) gs.
Proof.
  revert seen. induction fs as [|f fs IH]; intros seen; simpl; [done|].
  unfold see. destruct (index_of f seen) as [i|] eqn:Hi; simpl.
  - rewrite decide_True by by eapply index_of_elem. by rewrite IH.
  - apply index_of_None in Hi. rewrite decide_False by done.
    by rewrite IH.
Qed.

Lemma add_files_spec cid fs st seen :
  files_rel (file_defs st) seen →
  ∃ st', for_each (add_file cid) fs st = Ok st'
    ∧ graph st' = graph st ++ file_lines cid seen fs
    ∧ commit_defs st' = commit_defs st
    ∧ files_rel (file_defs st') (see_all seen fs).
Proof.
  revert st seen. induction fs as [|f fs IH]; intros st seen Hrel.
  - exists st. simpl. by rewrite app_nil_r.
  - destruct (add_file_spec cid st f seen Hrel)
      as (st1 & Hrun & Hg & Hc & Hrel1).
    destruct (IH st1 _ Hrel1) as (st2 & Hrun2 & Hg2 & Hc2 & Hrel2).
    exists st2.
    split_and!; [by simpl; rewrite Hrun| |congruence|done].
    rewrite Hg2, Hg, <-app_assoc.
    change (f :: fs) with ([f] ++ fs). by rewrite file_lines_app.
Qed.

Lemma assign_nodes_spec l idx st seen :
  files_rel (file_defs st) seen →
  ∃ st', assign_nodes idx l st = Ok st'
    ∧ graph st' = graph st ++ node_lines idx l seen
    ∧ files_rel (file_defs st') (see_all seen (all_files l))
    ∧ ∀ h, d_get h (commit_defs st') =
           match last_index h l with
           | Some j => Some (commit_name (idx + j + 1))
           | None => d_get h (commit_defs st)
           end.
Proof.
  revert idx st seen. induction l as [|c l IH]; intros idx st seen Hrel.
  - exists st. simpl. by rewrite app_nil_r.
  - simpl assign_nodes.
    set (st0 := emit _ _).
    destruct (add_files_spec (commit_name (idx + 1)) (files c) st0 seen)
      as (st1 & Hrun & Hg & Hc & Hrel1); [done|].
    destruct (IH (S idx) st1 _ Hrel1) as (st2 & Hrun2 & Hg2 & Hrel2 & Hc2).
    exists st2. split_and!; [by rewrite Hrun| | |].
    + rewrite Hg2, Hg. subst st0. simpl. by rewrite <-!app_assoc.
    + unfold all_files. rewrite bind_cons. by rewrite see_all_app.
    + intros h. rewrite Hc2, Hc. subst st0. simpl.
      destruct (last_index h l) as [j|].
      * do 2 f_equal. lia.
      * rewrite d_get_set. destruct (decide (hash c = h)); [|done].
        do 2 f_equal. lia.
Qed.

Lemma add_parents_spec c cid ps st :
  d_get (hash c) (commit_defs st) = Some cid →
  for_each (add_parent cid) ps st =
  Ok {| graph := graph st
                 ++ (ps ≫= derive_line (λ h, d_get h (commit_defs st)) c);
        commit_defs := commit_defs st; file_defs := file_defs st |}.
Proof.
  intros Hc. revert st Hc. induction ps as [|p ps IH]; intros st Hc.
  - simpl. rewrite app_nil_r. by destruct st.
  - simpl for_each. unfold add_parent at 1, d_mem, d_item.
    rewrite bind_cons. unfold derive_line at 1. rewrite Hc.
    destruct (d_get p (commit_defs st)) as [pid|]; simpl.
    + rewrite IH by done. simpl. by rewrite <-app_assoc.
    + by rewrite IH.
Qed.

Lemma derive_lines_cons ids c l :
  derive_lines ids (c :: l) =
  (parents c ≫= derive_line ids c) ++ derive_lines ids l.
Proof. unfold derive_lines. by rewrite bind_cons. Qed.

Lemma link_spec l st :
  (∀ c, c ∈ l → is_Some (d_get (hash c) (commit_defs st))) →
  for_each link_commit l st =
  Ok {| graph := graph st
                 ++ derive_lines (λ h, d_get h (commit_defs st)) l;
        commit_defs := commit_defs st; file_defs := file_defs st |}.
Proof.
  revert st. induction l as [|c l IH]; intros st Hin.
  - simpl. unfold derive_lines. simpl. rewrite app_nil_r. by destruct st.
  - destruct (Hin c) as [cid Hc]; [by left|].
    rewrite derive_lines_cons.
    simpl for_each. unfold link_commit at 1, d_item. rewrite Hc. simpl.
    rewrite (add_parents_spec c) by done. simpl.
    rewrite IH by (intros c' Hc'; simpl; apply Hin; by right). simpl.
    by rewrite <-app_assoc.
Qed.

Lemma derive_lines_ext ids ids' l :
  (∀ h, ids h = ids' h) → derive_lines ids l = derive_lines ids' l.
Proof.
  intros Hext. unfold derive_lines.
  induction l as [|c l IH]; [done|]. rewrite !bind_cons, IH. f_equal.
  induction (parents c) as [|p ps IHp]; [done|].
  rewrite !bind_cons, IHp. f_equal. unfold derive_line.
  by rewrite !Hext.
Qed.

Lemma node_of_last_index cs h :
  match last_index h (rev cs) with
  | Some j => Some (commit_name (0 + j + 1))
  | None => None
  end = node_of cs h.
Proof.
  unfold node_of, node_at. rewrite last_index_rev.
  destruct (first_index h cs) as [i|] eqn:Hi; simpl; [|done].
  apply first_index_lt in Hi. do 2 f_equal. lia.
Qed.

(** The whole of [build_state]: it never raises, and its lines and
    dictionaries are the ones of the list-level description. *)
Lemma build_state_spec cs :
  ∃ st : BuildState D, build_state cs = Ok st
    ∧ graph st = preamble ++ node_lines 0 (rev cs) []
                 ++ derive_lines (node_of cs) (rev cs) ++ [Raw "@enduml"]
    ∧ (∀ h, d_get h (commit_defs st) = node_of cs h)
    ∧ (∀ f, d_get f (file_defs st) = file_node cs f).
Proof.
  destruct (assign_nodes_spec (rev cs) 0 build_init [] files_rel_empty)
    as (st1 & Hrun & Hg & [Hf _] & Hc).
  assert (Hids : ∀ h, d_get h (commit_defs st1) = node_of cs h).
  { intros h. rewrite Hc, <-node_of_last_index. simpl.
    destruct (last_index h (rev cs)); [done|apply d_get_empty]. }
  unfold build_state. rewrite Hrun. simpl.
  rewrite link_spec; simpl.
  - eexists. split; [done|]. simpl. split_and!; [|done|done].
    rewrite Hg. simpl. rewrite <-!app_assoc.
    by rewrite (derive_lines_ext _ (node_of cs)).
  - intros c Hin. rewrite Hids. unfold node_of. rewrite fmap_is_Some.
    apply first_index_is_Some, list_elem_of_fmap. exists c.
    split; [done|]. by apply list_elem_of_In, in_rev, list_elem_of_In.
Qed.

End refinement.

(** * Reading the list-level description *)

Lemma filter_none {A} (P : A → Prop) `{∀ x, Decision (P x)} (l : list A) :
  Forall (λ x, ¬ P x) l → filter P l = [].
Proof.
  induction 1 as [|x l Hx _ IH]; [done|]. by rewrite filter_cons_False.
Qed.

Lemma filter_all {A} (P : A → Prop) `{∀ x, Decision (P x)} (l : list A) :
  Forall P l → filter P l = l.
Proof.
  induction 1 as [|x l Hx _ IH]; [done|].
  by rewrite filter_cons_True, IH.
Qed.

Lemma commit_name_inj a b : commit_name a = commit_name b → a = b.
Proof.
  unfold commit_name. intros Heq%String.app_inj. by apply pretty_nat_inj.
Qed.

Lemma file_name_inj a b : file_name a = file_name b → a = b.
Proof.
  unfold file_name. intros Heq%String.app_inj. by apply pretty_nat_inj.
Qed.

Lemma rev_lookup {A} (l : list A) i x :
  l !! i = Some x → rev l !! (length l - 1 - i) = Some x.
Proof.
  intros Hi. pose proof (lookup_lt_Some _ _ _ Hi) as Hlt.
  rewrite rev_alt. change (rev_append l []) with (reverse l).
  rewrite reverse_lookup by lia. rewrite <-Hi. f_equal. lia.
Qed.

Lemma file_lines_cons cid seen f fs :
  file_lines cid seen (f :: fs) =
  match index_of f seen with
  | Some _ => []
  | None => [FileDecl f (file_name (length seen + 1))]
  end ++
  Touched cid (file_name (default (length seen) (index_of f seen) + 1))
  :: file_lines cid (see seen f) fs.
Proof.
  simpl. unfold see. destruct (index_of f seen) eqn:Hi; simpl.
  - by rewrite decide_True by by eapply index_of_elem.
  - apply index_of_None in Hi. by rewrite decide_False.
Qed.

Lemma file_lines_kinds cid seen fs :
  Forall (λ x, is_file_decl x ∨ is_touched x) (file_lines cid seen fs).
Proof.
  revert seen. induction fs as [|f fs IH]; intros seen; simpl; [done|].
  destruct (index_of f seen); repeat (constructor; [simpl; auto|]);
    apply IH.
Qed.

Lemma derive_lines_kinds ids l : Forall is_derives (derive_lines ids l).
Proof.
  apply Forall_forall. intros x. unfold derive_lines.
  intros (c & Hx & _)%list_elem_of_bind.
  apply list_elem_of_bind in Hx as (p & Hx & _). unfold derive_line in Hx.
  destruct (ids p), (ids (hash c)); try by apply elem_of_nil in Hx.
  by apply list_elem_of_singleton in Hx as ->.
Qed.

Lemma node_lines_kinds idx l seen :
  Forall (λ x, is_commit_decl x ∨ is_file_decl x ∨ is_touched x)
    (node_lines idx l seen).
Proof.
  revert idx seen. induction l as [|c l IH]; intros idx seen; simpl; [done|].
  constructor; [simpl; auto|]. apply Forall_app. split; [|apply IH].
  eapply Forall_impl; [apply file_lines_kinds|]. simpl. tauto.
Qed.

(** The kind-based filters on each segment of the output. *)
Lemma filter_commit_decl_file_lines cid seen fs :
  filter is_commit_decl (file_lines cid seen fs) = [].
Proof.
  apply filter_none. eapply Forall_impl; [apply file_lines_kinds|].
  intros []; simpl; tauto.
Qed.

Lemma filter_commit_decl_derive_lines ids l :
  filter is_commit_decl (derive_lines ids l) = [].
Proof.
  apply filter_none. eapply Forall_impl; [apply derive_lines_kinds|].
  intros []; simpl; tauto.
Qed.

Lemma filter_derives_node_lines idx l seen :
  filter is_derives (node_lines idx l seen) = [].
Proof.
  apply filter_none. eapply Forall_impl; [apply node_lines_kinds|].
  intros []; simpl; tauto.
Qed.

Lemma filter_declares_derive_lines f ids l :
  filter (declares f) (derive_lines ids l) = [].
Proof.
  apply filter_none. eapply Forall_impl; [apply derive_lines_kinds|].
  intros []; simpl; tauto.
Qed.

Lemma filter_touches_derive_lines fid ids l :
  filter (touches fid) (derive_lines ids l) = [].
Proof.
  apply filter_none. eapply Forall_impl; [apply derive_lines_kinds|].
  intros []; simpl; tauto.
Qed.

(** One declaration per visited record, in visiting order. *)
Lemma filter_commit_decl_node_lines idx l seen :
  filter is_commit_decl (node_lines idx l seen) =
  imap (λ j c, CommitDecl (message c) (commit_name (idx + j + 1))) l.
Proof.
  revert idx seen. induction l as [|c l IH]; intros idx seen; [done|].
  simpl node_lines. rewrite filter_cons_True by done.
  rewrite filter_app, filter_commit_decl_file_lines, IH. simpl.
  f_equal; [do 2 f_equal; lia|].
  apply imap_ext. intros j c' _. simpl. do 2 f_equal. lia.
Qed.

(** The declaration and the touched edges of a visited record. *)
Lemma file_lines_touched cid seen fs f :
  f ∈ fs →
  ∃ j, index_of f (see_all seen fs) = Some j
    ∧ Touched cid (file_name (j + 1)) ∈ file_lines cid seen fs.
Proof.
  revert seen. induction fs as [|f0 fs IH]; intros seen Hin.
  { by apply elem_of_nil in Hin. }
  rewrite file_lines_cons. simpl see_all.
  apply elem_of_cons in Hin as [->|Hin].
  - eexists. split.
    + apply index_of_see_all. apply index_of_see.
    + apply elem_of_app. right. by left.
  - destruct (IH (see seen f0) Hin) as (j & Hj & Hl).
    exists j. split; [done|]. apply elem_of_app. right. by right.
Qed.

Lemma node_lines_lookup idx l seen k c :
  l !! k = Some c →
  CommitDecl (message c) (commit_name (idx + k + 1)) ∈ node_lines idx l seen
  ∧ ∀ f, f ∈ files c →
      ∃ j, index_of f (see_all seen (all_files l)) = Some j
        ∧ Touched (commit_name (idx + k + 1)) (file_name (j + 1))
          ∈ node_lines idx l seen.
Proof.
  revert idx seen k. induction l as [|c0 l IH]; intros idx seen k; [done|].
  simpl node_lines. unfold all_files. rewrite bind_cons, see_all_app.
  destruct k as [|k]; simpl.
  - intros [= ->]. replace (idx + 0 + 1) with (idx + 1) by lia.
    split; [by left|]. intros f Hf.
    destruct (file_lines_touched (commit_name (idx + 1)) seen _ f Hf)
      as (j & Hj & Hl).
    exists j. split; [by apply index_of_see_all|].
    right. apply elem_of_app. by left.
  - intros Hk.
    destruct (IH (S idx) (see_all seen (files c0)) k Hk) as [Hd Ht].
    replace (idx + S k + 1) with (S idx + k + 1) by lia.
    split; [right; apply elem_of_app; by right|].
    intros f Hf. destruct (Ht f Hf) as (j & Hj & Hl).
    exists j. split; [done|]. right. apply elem_of_app. by right.
Qed.

(** The derives edges, pair by pair. *)
Lemma node_of_known cs h :
  h ∈ hash <$> cs → node_of cs h = Some (node_id cs h).
Proof.
  intros [i Hi]%first_index_is_Some. unfold node_id, node_of.
  by rewrite Hi.
Qed.

Lemma node_of_unknown cs h : h ∉ hash <$> cs → node_of cs h = None.
Proof.
  intros Hnin. unfold node_of.
  destruct (first_index h cs) eqn:Hi; [|done].
  destruct Hnin. apply first_index_is_Some. eauto.
Qed.

Lemma derive_lines_pairs cs l :
  (∀ c, c ∈ l → hash c ∈ hash <$> cs) →
  derive_lines (node_of cs) l =
  (c ← l; p ← parents c;
   if decide (p ∈ hash <$> cs)
   then [Derives (node_id cs p) (node_id cs (hash c))] else []).
Proof.
  intros Hl. induction l as [|c l IH]; [done|].
  rewrite derive_lines_cons, bind_cons, IH
    by (intros c' Hc'; apply Hl; by right).
  f_equal. assert (Hc : hash c ∈ hash <$> cs) by (apply Hl; by left).
  induction (parents c) as [|p ps IHp]; [done|].
  rewrite !bind_cons, IHp. f_equal. unfold derive_line.
  rewrite (node_of_known cs (hash c)) by done.
  destruct (decide (p ∈ hash <$> cs)) as [Hp|Hp].
  - by rewrite node_of_known.
  - by rewrite node_of_unknown.
Qed.

Lemma derive_lines_elem ids l p c :
  Derives p c ∈ derive_lines ids l →
  ∃ hp hc, ids hp = Some p ∧ ids hc = Some c.
Proof.
  unfold derive_lines. intros (r & Hx & _)%list_elem_of_bind.
  apply list_elem_of_bind in Hx as (h & Hx & _). unfold derive_line in Hx.
  destruct (ids h) eqn:Hh, (ids (hash r)) eqn:Hr;
    try by apply elem_of_nil in Hx.
  apply list_elem_of_singleton in Hx as [= -> ->]. eauto.
Qed.

(** * File nodes and touched edges *)

Lemma index_of_snoc_eq f seen :
  index_of f seen = None → index_of f (seen ++ [f]) = Some (length seen).
Proof.
  intros Hi. rewrite index_of_app, Hi. simpl.
  rewrite decide_True by done. simpl. f_equal. lia.
Qed.

Lemma index_of_snoc_ne f g seen :
  f ≠ g → index_of g (seen ++ [f]) = index_of g seen.
Proof.
  intros Hne. rewrite index_of_app. simpl. rewrite decide_False by done.
  by destruct (index_of g seen).
Qed.

Lemma all_files_cons c l : all_files (c :: l) = files c ++ all_files l.
Proof. unfold all_files. by rewrite bind_cons. Qed.

Lemma all_files_app l1 l2 : all_files (l1 ++ l2) = all_files l1 ++ all_files l2.
Proof. unfold all_files. by rewrite bind_app. Qed.

Lemma declares_file_lines cid seen fs f :
  filter (declares f) (file_lines cid seen fs) =
  match index_of f seen, index_of f (see_all seen fs) with
  | None, Some i => [FileDecl f (file_name (i + 1))]
  | _, _ => []
  end.
Proof.
  revert seen. induction fs as [|f0 fs IH]; intros seen.
  { simpl. by destruct (index_of f seen). }
  rewrite file_lines_cons, filter_app.
  rewrite (filter_cons_False _ (Touched _ _)) by (simpl; tauto).
  rewrite IH. simpl see_all. unfold see.
  destruct (index_of f0 seen) as [j0|] eqn:H0.
  - by rewrite decide_True by by eapply index_of_elem.
  - apply index_of_None in H0 as Hnin. rewrite decide_False by done.
    destruct (decide (f0 = f)) as [->|Hne].
    + rewrite filter_cons_True by done. rewrite H0.
      rewrite (index_of_snoc_eq f seen H0).
      by rewrite (index_of_see_all f _ fs _ (index_of_snoc_eq f seen H0)).
    + rewrite filter_cons_False by done.
      by rewrite (index_of_snoc_ne f0 f seen Hne).
Qed.

Lemma declares_node_lines idx l seen f :
  filter (declares f) (node_lines idx l seen) =
  match index_of f seen, index_of f (see_all seen (all_files l)) with
  | None, Some i => [FileDecl f (file_name (i + 1))]
  | _, _ => []
  end.
Proof.
  revert idx seen. induction l as [|c l IH]; intros idx seen.
  { simpl. by destruct (index_of f seen). }
  simpl node_lines. rewrite filter_cons_False by (simpl; tauto).
  rewrite filter_app, declares_file_lines, IH, all_files_cons, see_all_app.
  destruct (index_of f seen) as [i|] eqn:Hi.
  - by rewrite (index_of_see_all f seen (files c) i Hi).
  - destruct (index_of f (see_all seen (files c))) as [i|] eqn:Hi'; [|done].
    by rewrite (index_of_see_all f _ (all_files l) i Hi').
Qed.

Lemma touches_file_lines cid seen fs more f i :
  index_of f (see_all (see_all seen fs) more) = Some i →
  length (filter (touches (file_name (i + 1))) (file_lines cid seen fs)) =
  length (filter (λ g, g = f) fs).
Proof.
  revert seen. induction fs as [|f0 fs IH]; intros seen Hi; [done|].
  simpl see_all in Hi. rewrite file_lines_cons, filter_app.
  replace (filter (touches (file_name (i + 1)))
             match index_of f0 seen with
             | Some _ => []
             | None => [FileDecl f0 (file_name (length seen + 1))]
             end) with (@nil Line) by by destruct (index_of f0 seen).
  simpl app.
  pose proof (index_of_see_all f0 _ more _
    (index_of_see_all f0 _ fs _ (index_of_see seen f0))) as Hj0.
  destruct (decide (f0 = f)) as [->|Hne].
  - rewrite Hi in Hj0. injection Hj0 as <-.
    rewrite !filter_cons_True by done. simpl. f_equal. by apply IH.
  - rewrite !filter_cons_False; [by apply IH|done|].
    simpl. intros Heq%file_name_inj. apply Hne.
    eapply index_of_inj; [done|]. rewrite Hi. f_equal. lia.
Qed.

Lemma touches_node_lines idx l seen more f i :
  index_of f (see_all (see_all seen (all_files l)) more) = Some i →
  length (filter (touches (file_name (i + 1))) (node_lines idx l seen)) =
  length (filter (λ g, g = f) (all_files l)).
Proof.
  revert idx seen. induction l as [|c l IH]; intros idx seen Hi; [done|].
  rewrite all_files_cons in *. rewrite see_all_app in Hi.
  simpl node_lines. rewrite filter_cons_False by (simpl; tauto).
  rewrite !filter_app, !length_app. f_equal.
  - apply touches_file_lines with (more := all_files l ++ more).
    by rewrite see_all_app.
  - by apply IH.
Qed.

Lemma occurrences_rev f cs : occurrences f (rev cs) = occurrences f cs.
Proof.
  unfold occurrences. induction cs as [|c cs IH]; [done|].
  simpl rev.
  rewrite all_files_app, !all_files_cons, !filter_app, !length_app, IH.
  change (all_files []) with (@nil string). simpl. lia.
Qed.

Lemma count_NoDup (f : string) (l : list string) :
  NoDup l → length (filter (λ g, g = f) l) = if decide (f ∈ l) then 1 else 0.
Proof.
  induction 1 as [|g l Hg _ IH]; [done|].
  destruct (decide (g = f)) as [->|Hne].
  - rewrite filter_cons_True, decide_True by (done || by left). simpl.
    rewrite IH. by rewrite decide_False.
  - rewrite filter_cons_False, IH by done.
    destruct (decide (f ∈ l)) as [Hin|Hnin].
    + rewrite decide_True; [done|by right].
    + rewrite decide_False; [done|].
      intros [->|?]%elem_of_cons; done.
Qed.

Lemma occurrences_NoDup f cs :
  (∀ c, c ∈ cs → NoDup (files c)) →
  occurrences f cs = commits_touching f cs.
Proof.
  unfold occurrences, commits_touching.
  induction cs as [|c cs IH]; intros Hnd; [done|].
  rewrite all_files_cons, filter_app, length_app.
  rewrite IH by (intros c' Hc'; apply Hnd; by right).
  rewrite count_NoDup by (apply Hnd; by left).
  destruct (decide (f ∈ files c)).
  - by rewrite filter_cons_True.
  - by rewrite filter_cons_False.
Qed.

Lemma elem_of_all_files_rev f cs : f ∈ all_files (rev cs) ↔ f ∈ all_files cs.
Proof.
  unfold all_files. rewrite !list_elem_of_bind.
  split; intros (c & Hf & Hc); exists c; split; try done;
    apply list_elem_of_In; apply list_elem_of_In in Hc;
    [by apply in_rev|by apply in_rev in Hc].
Qed.

Lemma index_of_first_seen f cs :
  f ∈ all_files cs → ∃ i, index_of f (first_seen cs) = Some i.
Proof.
  intros Hf. apply index_of_Some. unfold first_seen.
  apply elem_of_see_all. right. by apply elem_of_all_files_rev.
Qed.

(** * The scanning loop once a record is open *)

Lemma with_files_nil c : with_files c [] = c.
Proof. destruct c. unfold with_files. simpl. by rewrite app_nil_r. Qed.

Lemma with_files_add c line fs :
  with_files (add_file_line c line) fs =
  with_files c (PyStr.strip line :: fs).
Proof. unfold with_files, add_file_line. simpl. by rewrite <-app_assoc. Qed.

Lemma contains_sep sep a b : PyStr.contains sep (a +:+ String sep b) = true.
Proof.
  induction a as [|c a IH]; simpl.
  - by rewrite decide_True.
  - by destruct (decide (c = sep)).
Qed.

(** After a header line the loop cannot raise any more, and the record
    that is open ends up in the result with the file lines that follow
    it. *)
Lemma scan_from_record post cms c :
  ∃ st fs more,
    for_each scan_line post (mkScan cms (Some c)) = Ok st
    ∧ flush st = cms ++ with_files c fs :: more.
Proof.
  revert cms c. induction post as [|line post IH]; intros cms c.
  - exists (mkScan cms (Some c)), [], [].
    split; [done|]. unfold flush. simpl. by rewrite with_files_nil.
  - simpl for_each. unfold scan_line at 1.
    destruct (decide (line = "")) as [_|_]; [apply IH|].
    destruct (PyStr.contains bar line) eqn:Hc.
    + destruct (parse_header_total line Hc) as [c2 ->]. simpl.
      unfold flush at 1. simpl.
      destruct (IH (cms ++ [c]) c2) as (st & fs & more & -> & Hf).
      exists st, [], (with_files c2 fs :: more). split; [done|].
      by rewrite Hf, with_files_nil, <-app_assoc.
    + simpl.
      destruct (IH cms (add_file_line c line)) as (st & fs & more & -> & Hf).
      exists st, (PyStr.strip line :: fs), more. split; [done|].
      by rewrite Hf, with_files_add.
Qed.

(** A file-path line met while no record is open stops the parse. *)
Lemma scan_orphan_raises line rest :
  line ≠ "" → PyStr.contains bar line = false →
  for_each scan_line (line :: rest) scan_init = Raise TypeError.
Proof.
  intros Hne Hc. simpl. unfold scan_line.
  by rewrite decide_False, Hc by done.
Qed.

(** Filters on the fixed lines. *)
Lemma filter_preamble (P : Line → Prop) `{∀ x, Decision (P x)} :
  (∀ text, ¬ P (Raw text)) →
  filter P preamble = [] ∧ filter P [Raw "@enduml"] = [].
Proof.
  intros HP. split; apply filter_none; repeat constructor; apply HP.
Qed.

Ltac split_graph Hg :=
  rewrite Hg, !filter_app;
  match goal with
  | |- context [filter ?P preamble] =>
      destruct (filter_preamble P) as [-> ->]; [intros ?; simpl; tauto|]
  end.

(** * The parser *)

(** C1.  A file-path line that comes before any header line is not
    discarded: the loop reads [current_commit['files']] while
    [current_commit] is still [None], and [get_commits] raises
    [TypeError] instead of returning a commit sequence. *)
Theorem orphan_file_line_raises :
  get_commits ("file1.txt" +:+ nl +:+ "a1|Initial commit|") = Raise TypeError.
Proof. by vm_compute. Qed.

(** C6.  A header line [h|m|p1 p2 ...] whose hash and message hold no
    separator and whose parents are non-empty tokens without whitespace
    joined by single spaces is parsed into exactly the fields [h], [m]
    and [[p1; p2; ...]], and re-joining these fields gives the line
    back.  The split stops after two separators: whatever follows the
    second one, separators included, is the third field. *)
Theorem header_round_trip h m ps :
  PyStr.free_of bar h → PyStr.free_of bar m → Forall PyStr.token ps →
  (∃ c, parse_header (h +:+ String bar (m +:+ String bar (PyStr.join " " ps)))
        = Ok c
      ∧ hash c = h ∧ message c = m ∧ parents c = ps ∧ files c = []
      ∧ rejoin c = h +:+ String bar (m +:+ String bar (PyStr.join " " ps)))
  ∧ ∀ rest, PyStr.split_max bar (h +:+ String bar (m +:+ String bar rest)) 2
            = [h; m; rest].
Proof.
  intros Hh Hm Hps. split.
  - eexists. split; [by apply parse_header_three|].
    unfold rejoin. cbn [hash message parents files].
    by rewrite split_ws_join.
  - intros rest. by rewrite !split_max_sep, split_max_0.
Qed.

Lemma header_round_trip_witness :
  (PyStr.free_of bar "a2" ∧ PyStr.free_of bar "Add feature"
   ∧ Forall PyStr.token ["a1"; "b|7"])
  ∧ ∃ c, parse_header "a2|Add feature|a1 b|7" = Ok c
      ∧ hash c = "a2" ∧ message c = "Add feature"
      ∧ parents c = ["a1"; "b|7"].
Proof.
  assert (Hh : PyStr.free_of bar "a2") by reflexivity.
  assert (Hm : PyStr.free_of bar "Add feature") by reflexivity.
  assert (Hps : Forall PyStr.token ["a1"; "b|7"]).
  { repeat constructor; discriminate. }
  split; [by repeat split|].
  destruct (header_round_trip "a2" "Add feature" ["a1"; "b|7"] Hh Hm Hps)
    as [(c & Hc & H1 & H2 & H3 & _) _].
  exists c. by repeat split.
Defined.

(** C7.  A header line with exactly one separator, [a|b], does not
    split into three fields; the parent-hash field is then taken as
    empty.  Wherever the line stands in the text, provided the lines
    before it were read without error, [get_commits] returns, and its
    result holds the record with hash [a], message [b] and no parent
    (together with the file lines that follow it). *)
Theorem malformed_header_kept stdout pre post a b st :
  PyStr.free_of bar a → PyStr.free_of bar b →
  PyStr.split newline (PyStr.strip stdout)
    = pre ++ (a +:+ String bar b) :: post →
  for_each scan_line pre scan_init = Ok st →
  parse_header (a +:+ String bar b) = Ok (mkCommit a b [] [])
  ∧ ∃ cs fs, get_commits stdout = Ok cs ∧ mkCommit a b [] fs ∈ cs.
Proof.
  intros Ha Hb Hsplit Hpre.
  pose proof (parse_header_two a b Ha Hb) as Hparse. split; [done|].
  unfold get_commits. rewrite Hsplit, for_each_app, Hpre. simpl.
  unfold scan_line at 1. rewrite contains_sep, Hparse.
  rewrite decide_False by (by destruct a). simpl.
  destruct (scan_from_record post (flush st) (mkCommit a b [] []))
    as (st' & fs & more & -> & Hf).
  simpl. exists (flush st'), fs. split; [done|].
  rewrite Hf. apply elem_of_app. right. by left.
Qed.

Lemma malformed_header_kept_witness :
  ∃ cs fs,
    get_commits ("a1|first|p" +:+ nl +:+ "f.txt" +:+ nl +:+ "b|second"
                 +:+ nl +:+ "g.txt") = Ok cs
    ∧ mkCommit "b" "second" [] fs ∈ cs.
Proof.
  refine (proj2 (malformed_header_kept
    ("a1|first|p" +:+ nl +:+ "f.txt" +:+ nl +:+ "b|second" +:+ nl +:+ "g.txt")
    ["a1|first|p"; "f.txt"] ["g.txt"] "b" "second"
    (mkScan [] (Some (mkCommit "a1" "first" ["p"] ["f.txt"])))
    _ _ _ _)); reflexivity.
Defined.

(** * The graph builder *)

(** C2.  On the scenario text the parser returns the record of a1
    followed by the record of a2; the builder visits them in reverse,
    so a2 is declared first ([Commit1]) and a1 second ([Commit2]),
    file2.txt gets [File1] and file1.txt gets [File2], the touched
    edges are a2→file2.txt, a2→file1.txt, a1→file1.txt in this order,
    and the only derives edge goes from the node of a1 to the node of
    a2. *)
Theorem scenario_graph :
  get_commits scenario_text = Ok scenario_commits
  ∧ ∃ st : BuildState dict,
      build_state scenario_commits = Ok st
      ∧ d_get "a2" (commit_defs st) = Some "Commit1"
      ∧ d_get "a1" (commit_defs st) = Some "Commit2"
      ∧ filter is_commit_decl (graph st)
        = [CommitDecl "Add feature" "Commit1";
           CommitDecl "Initial commit" "Commit2"]
      ∧ d_get "file2.txt" (file_defs st) = Some "File1"
      ∧ d_get "file1.txt" (file_defs st) = Some "File2"
      ∧ filter is_file_decl (graph st)
        = [FileDecl "file2.txt" "File1"; FileDecl "file1.txt" "File2"]
      ∧ filter is_touched (graph st)
        = [Touched "Commit1" "File1"; Touched "Commit1" "File2";
           Touched "Commit2" "File2"]
      ∧ filter is_derives (graph st) = [Derives "Commit2" "Commit1"].
Proof.
  split; [by vm_compute|].
  eexists. split; [by vm_compute|]. by vm_compute.
Qed.

(** C2, as stated, fails: a1 is not given the first commit identifier,
    file1.txt is not given the first file identifier, the touched edges
    do not come in the order a1→file1.txt, a2→file2.txt, a2→file1.txt
    and, with a1 as first and a2 as second node, there is no derives
    edge from the first to the second. *)
Lemma scenario_not_in_input_order :
  ∃ (cs : list Commit) (st : BuildState dict),
    get_commits scenario_text = Ok cs
    ∧ build_state cs = Ok st
    ∧ d_get "a1" (commit_defs st) ≠ Some "Commit1"
    ∧ d_get "a2" (commit_defs st) ≠ Some "Commit2"
    ∧ d_get "file1.txt" (file_defs st) ≠ Some "File1"
    ∧ d_get "file2.txt" (file_defs st) ≠ Some "File2"
    ∧ filter is_touched (graph st)
      ≠ [Touched "Commit1" "File1"; Touched "Commit2" "File2";
         Touched "Commit2" "File1"]
    ∧ filter is_derives (graph st) ≠ [Derives "Commit1" "Commit2"].
Proof.
  do 2 eexists. split; [by vm_compute|]. split; [by vm_compute|].
  by vm_compute.
Qed.

(** What both loops leave behind, shared by the theorems below. *)
Lemma build_state_edges (cs : list Commit) :
  ∃ st : BuildState dict,
    build_state cs = Ok st
    ∧ graph st = preamble ++ node_lines 0 (rev cs) []
                 ++ derive_lines (node_of cs) (rev cs) ++ [Raw "@enduml"]
    ∧ (∀ h, d_get h (commit_defs st) = node_of cs h)
    ∧ filter is_derives (graph st) = derives_of cs
    ∧ ∀ i c, cs !! i = Some c →
        CommitDecl (message c) (node_at cs i) ∈ graph st
        ∧ ∀ f, f ∈ files c →
            ∃ fid, file_node cs f = Some fid
                 ∧ Touched (node_at cs i) fid ∈ graph st.
Proof.
  destruct (build_state_spec (D:=dict) cs) as (st & Hrun & Hg & Hcd & _).
  exists st. split_and!; [done|done|done| |].
  - split_graph Hg.
    rewrite filter_derives_node_lines, app_nil_r.
    rewrite filter_all by apply derive_lines_kinds.
    apply derive_lines_pairs. intros c Hc. apply list_elem_of_fmap.
    exists c. split; [done|]. by apply list_elem_of_In, in_rev, list_elem_of_In.
  - intros i c Hi. pose proof (lookup_lt_Some _ _ _ Hi) as Hlt.
    destruct (node_lines_lookup 0 (rev cs) [] _ c (rev_lookup cs i c Hi))
      as [Hd Ht].
    replace (0 + (length cs - 1 - i) + 1) with (length cs - i) in * by lia.
    fold (node_at cs i) in *. rewrite Hg. split.
    + apply elem_of_app. right. apply elem_of_app. by left.
    + intros f Hf. destruct (Ht f Hf) as (j & Hj & Hl).
      exists (file_name (j + 1)). unfold file_node, first_seen.
      rewrite Hj. split; [done|].
      apply elem_of_app. right. apply elem_of_app. by left.
Qed.

(** C3.  For every commit sequence the builder returns, and its derives
    edges are, pair by pair in the order of the second loop, one edge
    for each parent entry whose hash is the hash of some record of the
    sequence and none for a parent entry whose hash is not.  Whatever
    its parents are, every record has its node declaration and a
    touched edge for each of its files. *)
Theorem derives_edge_iff_parent_known (cs : list Commit) :
  ∃ st : BuildState dict,
    build_state cs = Ok st
    ∧ filter is_derives (graph st) = derives_of cs
    ∧ ∀ i c, cs !! i = Some c →
        CommitDecl (message c) (node_at cs i) ∈ graph st
        ∧ ∀ f, f ∈ files c →
            ∃ fid, file_node cs f = Some fid
                 ∧ Touched (node_at cs i) fid ∈ graph st.
Proof.
  destruct (build_state_edges cs)
    as (st & Hrun & _ & _ & Hder & Hdecl).
  by exists st.
Qed.

(** C4, amended.  A file path that occurs in the file lists has exactly
    one node declaration, made with the identifier of its first-seen
    position, and exactly one touched edge into that node for each of
    its occurrences in the file lists; when no record lists a path
    twice, that is one edge for each of the records whose list holds
    the path. *)
Theorem file_node_once_edge_per_occurrence (cs : list Commit) (f : string) :
  f ∈ all_files cs →
  ∃ (st : BuildState dict) (i : nat),
    build_state cs = Ok st
    ∧ index_of f (first_seen cs) = Some i
    ∧ d_get f (file_defs st) = Some (file_name (i + 1))
    ∧ filter (declares f) (graph st) = [FileDecl f (file_name (i + 1))]
    ∧ length (filter (touches (file_name (i + 1))) (graph st))
      = occurrences f cs
    ∧ ((∀ c, c ∈ cs → NoDup (files c)) →
       occurrences f cs = commits_touching f cs).
Proof.
  intros Hf. destruct (index_of_first_seen f cs Hf) as [i Hi].
  destruct (build_state_spec (D:=dict) cs) as (st & Hrun & Hg & _ & Hfd).
  exists st, i. split_and!; [done|done| | | |apply occurrences_NoDup].
  - rewrite Hfd. unfold file_node. by rewrite Hi.
  - split_graph Hg.
    rewrite declares_node_lines, filter_declares_derive_lines.
    fold (first_seen cs). by rewrite Hi.
  - split_graph Hg.
    rewrite filter_touches_derive_lines, !app_nil_r. simpl.
    rewrite (touches_node_lines 0 (rev cs) [] [] f i) by done.
    apply occurrences_rev.
Qed.

Lemma file_node_once_edge_per_occurrence_witness :
  "file1.txt" ∈ all_files scenario_commits
  ∧ ∃ (st : BuildState dict) (i : nat),
      build_state scenario_commits = Ok st
      ∧ d_get "file1.txt" (file_defs st) = Some (file_name (i + 1))
      ∧ length (filter (touches (file_name (i + 1))) (graph st))
        = occurrences "file1.txt" scenario_commits.
Proof.
  assert (Hf : "file1.txt" ∈ all_files scenario_commits).
  { apply (bool_decide_unpack _). by vm_compute. }
  split; [done|].
  destruct (file_node_once_edge_per_occurrence scenario_commits "file1.txt" Hf)
    as (st & i & H1 & _ & H3 & _ & H5 & _).
  by exists st, i.
Defined.

(** C4, as stated, fails: a record whose file list holds the same path
    twice gives two touched edges into the node of that path, although
    only one record holds the path. *)
Lemma repeated_path_two_edges :
  ∃ (cs : list Commit) (st : BuildState dict),
    get_commits ("a|m|" +:+ nl +:+ "f" +:+ nl +:+ "f") = Ok cs
    ∧ build_state cs = Ok st
    ∧ commits_touching "f" cs = 1
    ∧ d_get "f" (file_defs st) = Some "File1"
    ∧ length (filter (touches "File1") (graph st)) = 2.
Proof.
  do 2 eexists. split; [by vm_compute|]. split; [by vm_compute|].
  by vm_compute.
Qed.

(** C5.  For every commit sequence the builder returns, and the commit
    node declarations of its output are one for each record, in
    visiting order, each with its own identifier: their number is the
    number of records, whether or not hashes repeat. *)
Theorem commit_node_per_record (cs : list Commit) :
  ∃ st : BuildState dict,
    build_state cs = Ok st
    ∧ filter is_commit_decl (graph st)
      = imap (λ j c, CommitDecl (message c) (commit_name (j + 1))) (rev cs)
    ∧ length (filter is_commit_decl (graph st)) = length cs.
Proof.
  destruct (build_state_spec (D:=dict) cs) as (st & Hrun & Hg & _ & _).
  exists st. split; [done|].
  assert (filter is_commit_decl (graph st)
          = imap (λ j c, CommitDecl (message c) (commit_name (j + 1)))
              (rev cs)) as ->.
  { split_graph Hg.
    rewrite filter_commit_decl_node_lines, filter_commit_decl_derive_lines.
    by rewrite !app_nil_r. }
  split; [done|]. by rewrite length_imap, length_rev.
Qed.

(** C8, amended.  The empty text parses to the empty commit sequence,
    and the builder then returns a graph without any commit node, file
    node or edge: the start marker, the three lines of the skinparam
    block and the end marker. *)
Theorem empty_input_graph :
  get_commits "" = Ok []
  ∧ (∃ st : BuildState dict,
       build_state [] = Ok st
       ∧ graph st = preamble ++ [Raw "@enduml"]
       ∧ filter is_commit_decl (graph st) = []
       ∧ filter is_file_decl (graph st) = []
       ∧ filter is_touched (graph st) = []
       ∧ filter is_derives (graph st) = [])
  ∧ build_graph (D:=dict) []
    = Ok ("@startuml" +:+ nl +:+ "skinparam rectangle {" +:+ nl +:+
          "   BackgroundColor #FDF6E3" +:+ nl +:+ "}" +:+ nl +:+ "@enduml").
Proof.
  split; [by vm_compute|]. split; [|by vm_compute].
  eexists. split; [by vm_compute|]. by vm_compute.
Qed.

(** C8, as stated, fails: the graph built for the empty text is not
    made of the start and end markers only. *)
Lemma empty_graph_not_only_markers :
  ∃ (cs : list Commit) (st : BuildState dict),
    get_commits "" = Ok cs
    ∧ build_state cs = Ok st
    ∧ graph st ≠ [Raw "@startuml"; Raw "@enduml"]
    ∧ build_graph (D:=dict) cs ≠ Ok ("@startuml" +:+ nl +:+ "@enduml").
Proof.
  do 2 eexists. split; [by vm_compute|]. split; [by vm_compute|].
  by vm_compute.
Qed.

Lemma graph_derives (g : list Line) cs :
  g = preamble ++ node_lines 0 (rev cs) []
      ++ derive_lines (node_of cs) (rev cs) ++ [Raw "@enduml"] →
  filter is_derives g = derive_lines (node_of cs) (rev cs).
Proof.
  intros Hg. split_graph Hg.
  rewrite filter_derives_node_lines, app_nil_r.
  by rewrite filter_all by apply derive_lines_kinds.
Qed.

Lemma node_at_inj cs i j :
  i < length cs → j < length cs → node_at cs i = node_at cs j → i = j.
Proof. unfold node_at. intros Hi Hj Heq%commit_name_inj. lia. Qed.

(** A record that comes after another record with the same hash is not
    the first one of any hash. *)
Lemma first_index_not_later cs h i j ci cj :
  i < j → cs !! i = Some ci → cs !! j = Some cj → hash ci = hash cj →
  first_index h cs ≠ Some j.
Proof.
  intros Hlt Hi Hj Hh Hf.
  destruct (first_index_lookup _ _ _ Hf) as (c & Hc & <-).
  assert (c = cj) as -> by congruence.
  pose proof (first_index_first _ _ _ _ _ Hf Hi Hh). lia.
Qed.

(** C9.  The output of the builder does not depend on the dictionaries
    it is run with: for any two implementations of the dictionary
    interface that satisfy its laws, whatever the order in which they
    lay out their entries, the builder returns on the same commit
    sequence the same text, the same lines in the same order and the
    same identifier for every hash and every path. *)
Theorem build_graph_deterministic
    (D1 D2 : Type) `{DictLaws D1} `{DictLaws D2} (cs : list Commit) :
  build_graph (D:=D1) cs = build_graph (D:=D2) cs
  ∧ ∃ (st1 : BuildState D1) (st2 : BuildState D2),
      build_state cs = Ok st1 ∧ build_state cs = Ok st2
      ∧ graph st1 = graph st2
      ∧ (∀ h, d_get h (commit_defs st1) = d_get h (commit_defs st2))
      ∧ (∀ f, d_get f (file_defs st1) = d_get f (file_defs st2)).
Proof.
  destruct (build_state_spec (D:=D1) cs) as (st1 & Hrun1 & Hg1 & Hc1 & Hf1).
  destruct (build_state_spec (D:=D2) cs) as (st2 & Hrun2 & Hg2 & Hc2 & Hf2).
  split.
  - unfold build_graph. rewrite Hrun1, Hrun2. simpl. by rewrite Hg1, Hg2.
  - exists st1, st2. split_and!; [done|done|congruence| |].
    + intros h. by rewrite Hc1, Hc2.
    + intros f. by rewrite Hf1, Hf2.
Qed.

Lemma build_graph_deterministic_witness :
  (DictLaws dict ∧ @DictLaws (list (string * string)) alist_dict)
  ∧ build_graph (D:=dict) scenario_commits
    = build_graph (H:=alist_dict) scenario_commits.
Proof.
  split; [split; [exact gmap_dict_laws|exact alist_dict_laws]|].
  exact (proj1 (@build_graph_deterministic
    dict (list (string * string)) gmap_dict gmap_dict_laws
    alist_dict alist_dict_laws scenario_commits)).
Defined.

(** C10.  For every commit sequence the builder returns; the record at
    index [i] of the input is declared with the identifier
    [node_at cs i]; a hash resolves to the identifier of the first
    record of the input that carries it, which is the one visited last;
    the derives edges are the ones of [derives_of], whose ends are
    these resolved identifiers, so both ends of every derives edge
    belong to records that are the first of their hash; and the
    identifier of a record that comes after another record with the
    same hash is an end of no derives edge. *)
Theorem duplicate_hash_resolves_to_first_record (cs : list Commit) :
  ∃ st : BuildState dict,
    build_state cs = Ok st
    ∧ (∀ i c, cs !! i = Some c →
         CommitDecl (message c) (node_at cs i) ∈ graph st)
    ∧ (∀ h i, first_index h cs = Some i →
         d_get h (commit_defs st) = Some (node_at cs i)
         ∧ node_id cs h = node_at cs i)
    ∧ filter is_derives (graph st) = derives_of cs
    ∧ (∀ p c, Derives p c ∈ graph st →
         ∃ hp hc ip ic,
           first_index hp cs = Some ip ∧ first_index hc cs = Some ic
           ∧ p = node_at cs ip ∧ c = node_at cs ic)
    ∧ (∀ i j ci cj,
         i < j → cs !! i = Some ci → cs !! j = Some cj →
         hash ci = hash cj →
         ∀ p c, Derives p c ∈ graph st →
           p ≠ node_at cs j ∧ c ≠ node_at cs j).
Proof.
  destruct (build_state_edges cs)
    as (st & Hrun & Hg & Hcd & Hder & Hdecl).
  assert (Hends : ∀ p c, Derives p c ∈ graph st →
            ∃ hp hc ip ic,
              first_index hp cs = Some ip ∧ first_index hc cs = Some ic
              ∧ p = node_at cs ip ∧ c = node_at cs ic).
  { intros p c Hin.
    assert (Derives p c ∈ filter is_derives (graph st)) as Hin'
      by by apply list_elem_of_filter.
    rewrite (graph_derives _ cs Hg) in Hin'.
    apply derive_lines_elem in Hin' as (hp & hc & Hp & Hc).
    unfold node_of in Hp, Hc.
    apply fmap_Some in Hp as (ip & Hip & ->).
    apply fmap_Some in Hc as (ic & Hic & ->).
    by exists hp, hc, ip, ic. }
  exists st. split_and!; [done| | |done|done|].
  - intros i c Hi. by apply Hdecl.
  - intros h i Hi. rewrite Hcd. unfold node_id, node_of. by rewrite Hi.
  - intros i j ci cj Hlt Hi Hj Hh p c Hin.
    destruct (Hends p c Hin) as (hp & hc & ip & ic & Hip & Hic & -> & ->).
    pose proof (lookup_lt_Some _ _ _ Hj) as Hjlt.
    split; intros Heq; apply node_at_inj in Heq;
      eauto using first_index_lt; subst;
      eapply (first_index_not_later cs _ i j ci cj); eassumption.
Qed.

(** * More on the parser *)

Lemma header_lines_cons l ls :
  header_lines (l :: ls) =
  if PyStr.contains bar l then l :: header_lines ls else header_lines ls.
Proof.
  unfold header_lines. rewrite filter_cons.
  destruct (PyStr.contains bar l); by case_decide.
Qed.

Lemma path_lines_cons l ls :
  path_lines (l :: ls) =
  if decide (l = "") then path_lines ls
  else if PyStr.contains bar l then path_lines ls else l :: path_lines ls.
Proof.
  unfold path_lines. rewrite filter_cons.
  destruct (decide (l = "")), (PyStr.contains bar l); case_decide;
    try done; exfalso; intuition congruence.
Qed.

(** Empty lines leave the state of the loop as it is. *)
Lemma scan_blank ls st :
  for_each scan_line (filter (λ l, l ≠ "") ls) st = for_each scan_line ls st.
Proof.
  revert st. induction ls as [|l ls IH]; intros st; [done|].
  rewrite filter_cons. destruct (decide (l ≠ "")) as [Hne|Heq]; simpl.
  - destruct (scan_line st l); simpl; [apply IH|done].
  - destruct (decide (l = "")) as [->|]; [|done].
    unfold scan_line. simpl. apply IH.
Qed.

Lemma split_max_cases sep s n :
  (PyStr.free_of sep s ∧ PyStr.split_max sep s n = [s])
  ∨ (n = 0 ∧ PyStr.split_max sep s n = [s])
  ∨ ∃ a rest n', n = S n' ∧ PyStr.free_of sep a
      ∧ PyStr.split_max sep s n = a :: PyStr.split_max sep rest n'.
Proof.
  unfold PyStr.free_of. induction s as [|c s IH]; [by left|].
  destruct n as [|n]; [right; by left|]. simpl.
  destruct (decide (c = sep)) as [->|Hne].
  - right. right. by exists "", s, n.
  - destruct IH as [[Hf ->]|[[? _]|(a & rest & n' & Hn & Hf & ->)]];
      [by left|done|].
    right. right. exists (String c a), rest, n'. simpl.
    by rewrite decide_False.
Qed.

Lemma split_ws_tokens s : Forall PyStr.token (PyStr.split_ws s).
Proof.
  assert (Hcons : ∀ c l, PyStr.isspace c = false → Forall PyStr.token l →
            Forall PyStr.token (PyStr.cons_first c l)).
  { intros c l Hc Hl. unfold PyStr.token in *.
    destruct Hl as [|w ws [_ Hw] Hws]; simpl.
    - repeat constructor; [done|]. simpl. by rewrite Hc.
    - constructor; [|done]. split; [done|]. simpl. by rewrite Hc, Hw. }
  induction s as [|c s IH]; [constructor|]. simpl.
  destruct (PyStr.isspace c) eqn:Hc; [done|].
  destruct s as [|c' s'].
  - by apply (Hcons c []).
  - destruct (PyStr.isspace c') eqn:Hc'; [|by apply Hcons].
    constructor; [|done]. split; [done|]. simpl. by rewrite Hc.
Qed.

Lemma parse_header_files line c : parse_header line = Ok c → files c = [].
Proof.
  unfold parse_header.
  destruct (unpack_parts _) as [[[a b] p]|]; simpl; [|done].
  by intros [= <-].
Qed.

Lemma parse_header_fields line c :
  parse_header line = Ok c →
  PyStr.free_of bar (hash c) ∧ PyStr.free_of bar (message c)
  ∧ Forall PyStr.token (parents c).
Proof.
  unfold parse_header.
  assert (Hparts : ∀ a b p,
            unpack_parts (PyStr.split_max bar line 2) = Ok (a, b, p) →
            PyStr.free_of bar a ∧ PyStr.free_of bar b).
  { intros a b p.
    destruct (split_max_cases bar line 2)
      as [[_ ->]|[[? _]|(a1 & r1 & n1 & [= <-] & Ha & ->)]]; [done|done|].
    destruct (split_max_cases bar r1 1)
      as [[Hb ->]|[[? _]|(b1 & r2 & n2 & [= <-] & Hb & ->)]]; [|done|].
    - by intros [= <- <- <-].
    - rewrite split_max_0. by intros [= <- <- <-]. }
  destruct (unpack_parts _) as [[[a b] p]|] eqn:Hu; simpl; [|done].
  intros [= <-]. simpl. destruct (Hparts a b p eq_refl) as [Ha Hb].
  split_and!; [done|done|apply split_ws_tokens].
Qed.

Lemma lstrip_head s c r : PyStr.lstrip s = String c r → PyStr.isspace c = false.
Proof.
  induction s as [|c0 s IH]; simpl; [done|].
  destruct (PyStr.isspace c0) eqn:Hc0; [done|]. by intros [= <- _].
Qed.

Lemma rstrip_idem s : PyStr.rstrip (PyStr.rstrip s) = PyStr.rstrip s.
Proof.
  induction s as [|c s IH]; [done|]. simpl.
  destruct (PyStr.rstrip s) as [|c2 r2] eqn:Hr.
  - destruct (PyStr.isspace c) eqn:Hc; simpl; [done|]. by rewrite Hc.
  - remember (String c2 r2) as r. simpl. rewrite IH. by subst r.
Qed.

Lemma strip_idem s : PyStr.strip (PyStr.strip s) = PyStr.strip s.
Proof.
  unfold PyStr.strip.
  assert (PyStr.lstrip (PyStr.rstrip (PyStr.lstrip s))
          = PyStr.rstrip (PyStr.lstrip s)) as ->; [|apply rstrip_idem].
  destruct (PyStr.rstrip (PyStr.lstrip s)) as [|c r] eqn:Hr; [done|].
  destruct (rstrip_head _ _ _ Hr) as [s' Hs'].
  apply lstrip_head in Hs'. simpl. by rewrite Hs'.
Qed.

Lemma free_of_lstrip sep s :
  PyStr.free_of sep s → PyStr.free_of sep (PyStr.lstrip s).
Proof.
  unfold PyStr.free_of. induction s as [|c s IH]; [done|]. simpl.
  destruct (decide (c = sep)); [done|]. intros Hs.
  destruct (PyStr.isspace c); [by apply IH|]. simpl.
  by rewrite decide_False.
Qed.

Lemma free_of_rstrip sep s :
  PyStr.free_of sep s → PyStr.free_of sep (PyStr.rstrip s).
Proof.
  unfold PyStr.free_of. induction s as [|c s IH]; [done|]. simpl.
  destruct (decide (c = sep)) as [|Hne]; [done|]. intros Hs.
  specialize (IH Hs). destruct (PyStr.rstrip s) as [|c2 r2].
  - destruct (PyStr.isspace c); [done|]. simpl. by rewrite decide_False.
  - remember (String c2 r2) as r. simpl. by rewrite decide_False.
Qed.

Lemma free_of_strip sep s :
  PyStr.free_of sep s → PyStr.free_of sep (PyStr.strip s).
Proof. intros Hs. by apply free_of_rstrip, free_of_lstrip. Qed.

Lemma all_files_singleton c : all_files [c] = files c.
Proof. unfold all_files. simpl. apply app_nil_r. Qed.

(** What the loop adds to the records, line by line. *)
Lemma scan_lines_spec ls st st' :
  for_each scan_line ls st = Ok st' →
  (∀ hs, Forall2 (λ c l, parse_header l = Ok (header_of c)) (flush st) hs →
         Forall2 (λ c l, parse_header l = Ok (header_of c)) (flush st')
           (hs ++ header_lines ls))
  ∧ all_files (flush st')
    = all_files (flush st) ++ (PyStr.strip <$> path_lines ls).
Proof.
  revert st. induction ls as [|l ls IH]; intros st Hrun.
  { injection Hrun as <-. split.
    - intros hs Hhs. by rewrite app_nil_r.
    - by rewrite app_nil_r. }
  simpl in Hrun. destruct (scan_line st l) as [st1|] eqn:Hstep; [|done].
  simpl in Hrun. destruct (IH _ Hrun) as [IH1 IH2].
  rewrite header_lines_cons, path_lines_cons. unfold scan_line in Hstep.
  destruct (decide (l = "")) as [->|Hne].
  { injection Hstep as <-. by split. }
  destruct (PyStr.contains bar l) eqn:Hc.
  - destruct (parse_header l) as [c0|] eqn:Hp; simpl in Hstep; [|done].
    injection Hstep as <-. pose proof (parse_header_files _ _ Hp) as Hfs.
    assert (Hfl : flush (mkScan (flush st) (Some c0)) = flush st ++ [c0])
      by done.
    rewrite Hfl in *. split.
    + intros hs Hhs.
      replace (hs ++ l :: header_lines ls)
        with ((hs ++ [l]) ++ header_lines ls) by by rewrite <-app_assoc.
      apply IH1. apply Forall2_app; [done|].
      constructor; [|constructor]. rewrite Hp. f_equal.
      destruct c0. unfold header_of. simpl in *. by subst.
    + rewrite IH2, all_files_app, all_files_singleton, Hfs.
      by rewrite app_nil_r.
  - destruct (current_commit st) as [c|] eqn:Hcur; [|done].
    injection Hstep as <-.
    assert (Hfl1 : flush (mkScan (commits st) (Some (add_file_line c l)))
                   = commits st ++ [add_file_line c l]) by done.
    assert (Hfl : flush st = commits st ++ [c])
      by (unfold flush; by rewrite Hcur).
    rewrite Hfl1 in *. rewrite Hfl. split.
    + intros hs Hhs. apply IH1.
      apply Forall2_app_inv_l in Hhs as (k1 & k2 & H1 & H2 & ->).
      apply Forall2_app; [done|].
      inversion H2 as [|? h ? k2' Hh Hk2']; subst.
      inversion Hk2'; subst. by repeat constructor.
    + rewrite IH2, !all_files_app, !all_files_singleton. simpl.
      by rewrite <-!app_assoc.
Qed.

(** The three ways the loop can go, by the first non-empty line. *)
Lemma get_commits_cases (stdout : string) :
  match filter (λ l, l ≠ "") (log_lines stdout) with
  | [] => get_commits stdout = Ok []
  | l :: _ =>
      if PyStr.contains bar l
      then ∃ cs, get_commits stdout = Ok cs ∧ cs ≠ []
      else get_commits stdout = Raise TypeError
  end.
Proof.
  unfold get_commits, log_lines. rewrite <-scan_blank.
  destruct (filter _ _) as [|l ne] eqn:Hne; [done|].
  assert (l ≠ "") as Hl.
  { assert (l ∈ l :: ne) as Hin by by left.
    rewrite <-Hne in Hin. by apply list_elem_of_filter in Hin as [? _]. }
  destruct (PyStr.contains bar l) eqn:Hc.
  - simpl for_each. unfold scan_line at 1. rewrite decide_False, Hc by done.
    destruct (parse_header_total l Hc) as [c ->]. simpl.
    destruct (scan_from_record ne [] c) as (st & fs & more & Hrun & Hf).
    change (flush scan_init) with (@nil Commit). rewrite Hrun. simpl.
    exists (flush st). split; [done|]. by rewrite Hf.
  - by rewrite scan_orphan_raises.
Qed.

(** The records and their files against the lines of the log. *)
Lemma get_commits_spec (stdout : string) (cs : list Commit) :
  get_commits stdout = Ok cs →
  Forall2 (λ c l, parse_header l = Ok (header_of c))
    cs (header_lines (log_lines stdout))
  ∧ all_files cs = PyStr.strip <$> path_lines (log_lines stdout).
Proof.
  unfold get_commits, log_lines.
  destruct (for_each _ _ _) as [st|] eqn:Hrun; simpl; [|done].
  intros [= <-]. destruct (scan_lines_spec _ _ _ Hrun) as [Hh Hf].
  split; [|done]. apply (Hh []). constructor.
Qed.

(** X1.  [get_commits] fails in one way only: it returns the empty
    sequence when the text has no non-empty line, a non-empty sequence
    when the first non-empty line holds a separator, and raises
    [TypeError] when it does not. *)
Theorem get_commits_outcome (stdout : string) :
  match filter (λ l, l ≠ "") (log_lines stdout) with
  | [] => get_commits stdout = Ok []
  | l :: _ =>
      if PyStr.contains bar l
      then ∃ cs, get_commits stdout = Ok cs ∧ cs ≠ []
      else get_commits stdout = Raise TypeError
  end.
Proof. apply get_commits_cases. Qed.

(** X2.  When [get_commits] returns, its records are, in the order of
    the log, one for each line that holds a separator, with the hash,
    message and parents that [parse_header] reads from that line. *)
Theorem records_follow_headers (stdout : string) (cs : list Commit) :
  get_commits stdout = Ok cs →
  Forall2 (λ c l, parse_header l = Ok (header_of c))
    cs (header_lines (log_lines stdout)).
Proof. intros Hrun. by apply get_commits_spec. Qed.

Lemma records_follow_headers_witness :
  Forall2 (λ c l, parse_header l = Ok (header_of c))
    scenario_commits (header_lines (log_lines scenario_text)).
Proof. apply (records_follow_headers scenario_text). by vm_compute. Defined.

(** X3.  When [get_commits] returns, the file lists of its records, put
    end to end, are the non-empty lines without separator, each one
    stripped, in the order of the log. *)
Theorem files_follow_path_lines (stdout : string) (cs : list Commit) :
  get_commits stdout = Ok cs →
  all_files cs = PyStr.strip <$> path_lines (log_lines stdout).
Proof. intros Hrun. by apply get_commits_spec. Qed.

Lemma files_follow_path_lines_witness :
  all_files scenario_commits
  = PyStr.strip <$> path_lines (log_lines scenario_text).
Proof. apply (files_follow_path_lines scenario_text). by vm_compute. Defined.

(** X4.  Every record that [get_commits] returns has a hash and a
    message without separator, parents that are non-empty and free of
    whitespace, and file paths without separator and without leading or
    trailing whitespace. *)
Theorem parsed_fields_shape (stdout : string) (cs : list Commit) (c : Commit) :
  get_commits stdout = Ok cs → c ∈ cs →
  PyStr.free_of bar (hash c) ∧ PyStr.free_of bar (message c)
  ∧ Forall PyStr.token (parents c)
  ∧ Forall (λ f, PyStr.strip f = f ∧ PyStr.free_of bar f) (files c).
Proof.
  intros Hrun Hc.
  destruct (get_commits_spec _ _ Hrun) as [Hh Hf].
  apply list_elem_of_lookup in Hc as Hi. destruct Hi as [i Hi].
  destruct (Forall2_lookup_l _ _ _ _ _ Hh Hi) as (l & _ & Hl).
  destruct (parse_header_fields _ _ Hl) as (H1 & H2 & H3).
  split_and!; [done|done|done|].
  apply Forall_forall. intros f Hfc.
  assert (f ∈ all_files cs) as Hin.
  { unfold all_files. apply list_elem_of_bind. by exists c. }
  rewrite Hf in Hin. apply list_elem_of_fmap in Hin as (l' & -> & Hl').
  apply list_elem_of_filter in Hl' as [[_ Hfree] _].
  split; [apply strip_idem|by apply free_of_strip].
Qed.

Lemma parsed_fields_shape_witness :
  Forall (λ f, PyStr.strip f = f ∧ PyStr.free_of bar f)
    ["file2.txt"; "file1.txt"].
Proof.
  refine (proj2 (proj2 (proj2 (parsed_fields_shape scenario_text
    scenario_commits
    (mkCommit "a2" "Add feature" ["a1"] ["file2.txt"; "file1.txt"]) _ _)))).
  - by vm_compute.
  - apply (bool_decide_unpack _). by vm_compute.
Defined.

(** * More on the graph builder *)

Lemma str_app_assoc (s t u : string) : (s +:+ t) +:+ u = s +:+ (t +:+ u).
Proof.
  induction s as [|c s IH]; [done|]. by rewrite !app_String, IH.
Qed.

Lemma join_cons2 sep x y l :
  PyStr.join sep (x :: y :: l) = x +:+ (sep +:+ PyStr.join sep (y :: l)).
Proof. done. Qed.

Lemma join_snoc sep l z :
  l ≠ [] → PyStr.join sep (l ++ [z]) = PyStr.join sep l +:+ (sep +:+ z).
Proof.
  induction l as [|x l IH]; [done|]. intros _.
  destruct l as [|y l]; [done|].
  change ((x :: y :: l) ++ [z]) with (x :: y :: (l ++ [z])).
  rewrite !join_cons2.
  change (y :: l ++ [z]) with ((y :: l) ++ [z]).
  by rewrite IH, !str_app_assoc.
Qed.

Lemma filter_file_decl_derive_lines ids l :
  filter is_file_decl (derive_lines ids l) = [].
Proof.
  apply filter_none. eapply Forall_impl; [apply derive_lines_kinds|].
  intros []; simpl; tauto.
Qed.

Lemma filter_touched_derive_lines ids l :
  filter is_touched (derive_lines ids l) = [].
Proof.
  apply filter_none. eapply Forall_impl; [apply derive_lines_kinds|].
  intros []; simpl; tauto.
Qed.

Lemma graph_commit_decls (g : list Line) cs :
  g = preamble ++ node_lines 0 (rev cs) []
      ++ derive_lines (node_of cs) (rev cs) ++ [Raw "@enduml"] →
  filter is_commit_decl g
  = imap (λ j c, CommitDecl (message c) (commit_name (j + 1))) (rev cs).
Proof.
  intros Hg. split_graph Hg.
  rewrite filter_commit_decl_node_lines, filter_commit_decl_derive_lines.
  by rewrite !app_nil_r.
Qed.

(** File declarations: one for each path that is new, numbered on. *)
Lemma file_decls_file_lines cid seen fs :
  ∃ t, see_all seen fs = seen ++ t
    ∧ filter is_file_decl (file_lines cid seen fs)
      = imap (λ i f, FileDecl f (file_name (length seen + i + 1))) t.
Proof.
  revert seen. induction fs as [|f0 fs IH]; intros seen.
  { exists []. by rewrite app_nil_r. }
  rewrite file_lines_cons, filter_app. simpl see_all.
  rewrite (filter_cons_False _ (Touched _ _)) by (simpl; tauto).
  destruct (IH (see seen f0)) as (t & Ht & ->). rewrite Ht. unfold see.
  destruct (index_of f0 seen) as [j0|] eqn:H0.
  - rewrite decide_True by by eapply index_of_elem. by exists t.
  - apply index_of_None in H0. rewrite decide_False by done.
    exists (f0 :: t). split; [by rewrite <-app_assoc|].
    rewrite filter_cons_True by done. simpl. f_equal.
    + do 2 f_equal. lia.
    + apply imap_ext. intros i f _. simpl. rewrite length_app. simpl.
      do 2 f_equal. lia.
Qed.

Lemma file_decls_node_lines idx l seen :
  ∃ t, see_all seen (all_files l) = seen ++ t
    ∧ filter is_file_decl (node_lines idx l seen)
      = imap (λ i f, FileDecl f (file_name (length seen + i + 1))) t.
Proof.
  revert idx seen. induction l as [|c l IH]; intros idx seen.
  { exists []. by rewrite app_nil_r. }
  simpl node_lines. rewrite filter_cons_False by (simpl; tauto).
  rewrite filter_app, all_files_cons, see_all_app.
  destruct (file_decls_file_lines (commit_name (idx + 1)) seen (files c))
    as (t1 & Ht1 & ->).
  destruct (IH (S idx) (see_all seen (files c))) as (t2 & Ht2 & ->).
  rewrite Ht2, Ht1. exists (t1 ++ t2). split; [by rewrite <-app_assoc|].
  rewrite imap_app. f_equal. apply imap_ext. intros i f _. simpl.
  rewrite length_app. do 2 f_equal. lia.
Qed.

Lemma NoDup_see_all seen fs : NoDup seen → NoDup (see_all seen fs).
Proof.
  revert seen. induction fs as [|f fs IH]; intros seen Hnd; [done|].
  simpl. apply IH. unfold see. destruct (decide (f ∈ seen)); [done|].
  apply NoDup_app. split_and!; [done| |apply NoDup_singleton].
  intros x Hx ->%list_elem_of_singleton. done.
Qed.

Lemma elem_of_all_files f cs : f ∈ all_files cs ↔ ∃ c, c ∈ cs ∧ f ∈ files c.
Proof.
  unfold all_files. rewrite list_elem_of_bind. naive_solver.
Qed.

Lemma graph_file_decls (g : list Line) cs :
  g = preamble ++ node_lines 0 (rev cs) []
      ++ derive_lines (node_of cs) (rev cs) ++ [Raw "@enduml"] →
  filter is_file_decl g
  = imap (λ i f, FileDecl f (file_name (i + 1))) (first_seen cs).
Proof.
  intros Hg. split_graph Hg.
  rewrite filter_file_decl_derive_lines, !app_nil_r. simpl.
  destruct (file_decls_node_lines 0 (rev cs) []) as (t & Ht & ->).
  unfold first_seen. by rewrite Ht.
Qed.

(** Touched edges: one for each entry of a file list, towards the
    identifier the path has in the end. *)
Lemma touched_file_lines cid seen fs more :
  filter is_touched (file_lines cid seen fs)
  = (λ f, Touched cid
            (default "" ((λ i, file_name (i + 1))
                         <$> index_of f (see_all (see_all seen fs) more))))
    <$> fs.
Proof.
  revert seen. induction fs as [|f0 fs IH]; intros seen; [done|].
  rewrite file_lines_cons, filter_app. simpl see_all.
  replace (filter is_touched
             match index_of f0 seen with
             | Some _ => []
             | None => [FileDecl f0 (file_name (length seen + 1))]
             end) with (@nil Line) by by destruct (index_of f0 seen).
  rewrite filter_cons_True by done. rewrite IH. simpl. f_equal.
  by rewrite (index_of_see_all f0 _ more _
    (index_of_see_all f0 _ fs _ (index_of_see seen f0))).
Qed.

Lemma touched_node_lines idx l seen more :
  filter is_touched (node_lines idx l seen)
  = mjoin (imap (λ j c,
      (λ f, Touched (commit_name (idx + j + 1))
              (default "" ((λ i, file_name (i + 1))
                 <$> index_of f (see_all (see_all seen (all_files l)) more))))
      <$> files c) l).
Proof.
  revert idx seen. induction l as [|c l IH]; intros idx seen; [done|].
  simpl node_lines. rewrite filter_cons_False by (simpl; tauto).
  rewrite filter_app, all_files_cons.
  rewrite (touched_file_lines _ seen (files c) (all_files l ++ more)).
  rewrite (IH (S idx) (see_all seen (files c))).
  rewrite imap_cons. simpl mjoin. rewrite !see_all_app. f_equal.
  - replace (idx + 0 + 1) with (idx + 1) by lia. done.
  - f_equal. apply imap_ext. intros j c' _. simpl.
    replace (S (idx + j + 1)) with (idx + S j + 1) by lia. done.
Qed.

Lemma graph_touched (g : list Line) cs :
  g = preamble ++ node_lines 0 (rev cs) []
      ++ derive_lines (node_of cs) (rev cs) ++ [Raw "@enduml"] →
  filter is_touched g = touched_of cs.
Proof.
  intros Hg. split_graph Hg.
  rewrite filter_touched_derive_lines, !app_nil_r. simpl.
  by rewrite (touched_node_lines 0 (rev cs) [] []).
Qed.

Lemma length_join_imap (g : nat → Commit → list Line) l :
  (∀ j c, length (g j c) = length (files c)) →
  length (mjoin (imap g l)) = length (all_files l).
Proof.
  revert g. induction l as [|c l IH]; intros g Hg; [done|].
  rewrite imap_cons, all_files_cons. simpl. rewrite !length_app, Hg.
  f_equal. apply IH. intros j c'. apply Hg.
Qed.

Lemma length_all_files_rev cs :
  length (all_files (rev cs)) = length (all_files cs).
Proof.
  induction cs as [|c cs IH]; [done|]. simpl rev.
  rewrite all_files_app, all_files_singleton, all_files_cons, !length_app.
  lia.
Qed.

Lemma length_touched_of cs : length (touched_of cs) = length (all_files cs).
Proof.
  unfold touched_of. rewrite length_join_imap, length_all_files_rev; [done|].
  intros j c. by rewrite length_fmap.
Qed.

(** Identifiers of the declarations. *)
Lemma decl_ids_split (l : list Line) :
  omap decl_id l
  ≡ₚ omap decl_id (filter is_commit_decl l)
     ++ omap decl_id (filter is_file_decl l).
Proof.
  induction l as [|x l IH]; [done|]. destruct x.
  - by rewrite !filter_cons_False by (simpl; tauto).
  - rewrite filter_cons_True, filter_cons_False by (simpl; tauto).
    simpl. by constructor.
  - rewrite filter_cons_False, filter_cons_True by (simpl; tauto).
    simpl. rewrite IH. apply Permutation_middle.
  - by rewrite !filter_cons_False by (simpl; tauto).
  - by rewrite !filter_cons_False by (simpl; tauto).
Qed.

Lemma decl_ids_imap {A} (mk : A → string → Line) (name : nat → string)
    (l : list A) :
  (∀ x id, decl_id (mk x id) = Some id) →
  omap decl_id (imap (λ j x, mk x (name j)) l) = imap (λ j _, name j) l.
Proof.
  intros Hmk. revert name. induction l as [|x l IH]; intros name; [done|].
  rewrite !imap_cons. simpl. rewrite Hmk. f_equal. apply (IH (name ∘ S)).
Qed.

Lemma NoDup_imap_names {A} (name : nat → string) (l : list A) :
  (∀ i j, name i = name j → i = j) → NoDup (imap (λ j _, name j) l).
Proof.
  intros Hinj. apply NoDup_alt. intros i j x.
  rewrite !list_lookup_imap.
  destruct (l !! i), (l !! j); simpl; try done.
  intros [= <-] [= Heq]. symmetry. by apply Hinj.
Qed.

Lemma elem_of_imap_names {A} (name : nat → string) (l : list A) x :
  x ∈ imap (λ j _, name j) l → ∃ j, x = name j.
Proof.
  intros (i & Hi)%list_elem_of_lookup. rewrite list_lookup_imap in Hi.
  destruct (l !! i); simpl in Hi; [|done]. injection Hi as <-. eauto.
Qed.

Lemma commit_name_not_file_name a b : commit_name a ≠ file_name b.
Proof. unfold commit_name, file_name. rewrite !app_String. by intros [=]. Qed.

(** Scoping of the edges. *)
Lemma some_bind {A B} (x : A) (f : A → option B) : Some x ≫= f = f x.
Proof. done. Qed.

Lemma scope_check_app d l1 l2 :
  scope_check d (l1 ++ l2) = scope_check d l1 ≫= λ d', scope_check d' l2.
Proof.
  revert d. induction l1 as [|x l1 IH]; intros d; [done|].
  destruct x; simpl; try apply IH; by case_decide.
Qed.

Lemma scope_check_file_lines cid seen fs d :
  cid ∈ d →
  (∀ f i, index_of f seen = Some i → file_name (i + 1) ∈ d) →
  ∃ d', scope_check d (file_lines cid seen fs) = Some d'
    ∧ (∀ x, x ∈ d → x ∈ d')
    ∧ (∀ f i, index_of f (see_all seen fs) = Some i →
         file_name (i + 1) ∈ d').
Proof.
  revert seen d. induction fs as [|f0 fs IH]; intros seen d Hcid Hseen.
  { by exists d. }
  simpl file_lines. simpl see_all. unfold see.
  destruct (index_of f0 seen) as [j0|] eqn:H0.
  - rewrite decide_True by by eapply index_of_elem.
    simpl. rewrite decide_True by (split; [done|by eapply Hseen]).
    by apply IH.
  - apply index_of_None in H0 as Hnin. rewrite decide_False by done.
    simpl. rewrite decide_True
      by (split; [by right|by left]).
    destruct (IH (seen ++ [f0]) (file_name (length seen + 1) :: d))
      as (d' & Hrun & Hsub & Hfin).
    + by right.
    + intros f i. rewrite index_of_app.
      destruct (index_of f seen) as [i'|] eqn:Hi; simpl.
      * intros [= <-]. right. by eapply Hseen.
      * destruct (decide (f0 = f)); simpl; [|done].
        intros [= <-]. replace (length seen + 0 + 1)
          with (length seen + 1) by lia. by left.
    + exists d'. split_and!; [done| |done].
      intros x Hx. apply Hsub. by right.
Qed.

Lemma scope_check_node_lines idx l seen d :
  (∀ f i, index_of f seen = Some i → file_name (i + 1) ∈ d) →
  ∃ d', scope_check d (node_lines idx l seen) = Some d'
    ∧ (∀ x, x ∈ d → x ∈ d')
    ∧ (∀ j, j < length l → commit_name (idx + j + 1) ∈ d').
Proof.
  revert idx seen d. induction l as [|c l IH]; intros idx seen d Hseen.
  { exists d. split_and!; [done|done|]. simpl. lia. }
  simpl node_lines. simpl scope_check. rewrite scope_check_app.
  destruct (scope_check_file_lines (commit_name (idx + 1)) seen (files c)
              (commit_name (idx + 1) :: d))
    as (d1 & -> & Hsub1 & Hfin1); [by left| |].
  { intros f i Hi. right. by eapply Hseen. }
  simpl. destruct (IH (S idx) _ d1 Hfin1) as (d2 & -> & Hsub2 & Hfin2).
  exists d2. split_and!; [done| |].
  - intros x Hx. apply Hsub2, Hsub1. by right.
  - intros [|j] Hj.
    + replace (idx + 0 + 1) with (idx + 1) by lia.
      apply Hsub2, Hsub1. by left.
    + replace (idx + S j + 1) with (S idx + j + 1) by lia.
      apply Hfin2. simpl in Hj. lia.
Qed.

Lemma scope_check_derive_lines ids l d :
  (∀ h id, ids h = Some id → id ∈ d) →
  scope_check d (derive_lines ids l) = Some d.
Proof.
  intros Hids. induction l as [|c l IH]; [done|].
  rewrite derive_lines_cons, scope_check_app.
  assert (scope_check d (parents c ≫= derive_line ids c) = Some d) as ->;
    [|done].
  induction (parents c) as [|p ps IHp]; [done|].
  rewrite bind_cons, scope_check_app.
  assert (scope_check d (derive_line ids c p) = Some d) as ->; [|done].
  unfold derive_line.
  destruct (ids p) eqn:Hp, (ids (hash c)) eqn:Hc; simpl; try done.
  rewrite decide_True; [done|]. split; by eapply Hids.
Qed.

Lemma first_index_NoDup cs i c :
  NoDup (hash <$> cs) → cs !! i = Some c → first_index (hash c) cs = Some i.
Proof.
  revert i. induction cs as [|c0 cs IH]; intros i Hnd Hi; [done|].
  rewrite fmap_cons in Hnd. apply NoDup_cons in Hnd as [Hnin Hnd].
  destruct i as [|i]; simpl in *.
  - injection Hi as ->. by rewrite decide_True.
  - rewrite decide_False.
    + by rewrite (IH i Hnd Hi).
    + intros Heq. apply Hnin. rewrite Heq. apply list_elem_of_fmap.
      exists c. split; [done|]. by eapply list_elem_of_lookup_2.
Qed.

Lemma join_first_last sep x (mid : list string) z :
  mid ≠ [] →
  PyStr.join sep (x :: mid ++ [z])
  = x +:+ (sep +:+ (PyStr.join sep mid +:+ (sep +:+ z))).
Proof.
  intros Hne. destruct mid as [|y ys]; [done|].
  change (x :: (y :: ys) ++ [z]) with (x :: y :: (ys ++ [z])).
  rewrite join_cons2.
  change (y :: ys ++ [z]) with ((y :: ys) ++ [z]).
  by rewrite join_snoc.
Qed.

(** X5.  For every commit sequence [build_graph] returns a text: it
    never raises.  The text begins with the line [@startuml] and ends
    with the line [@enduml], as the repository's test of [build_graph]
    asserts. *)
Theorem build_graph_markers (cs : list Commit) :
  ∃ body, build_graph (D:=dict) cs
          = Ok ("@startuml" +:+ (nl +:+ (body +:+ (nl +:+ "@enduml")))).
Proof.
  destruct (build_state_spec (D:=dict) cs) as (st & Hrun & Hg & _ & _).
  unfold build_graph. rewrite Hrun. cbn [bind]. rewrite Hg.
  set (rest := node_lines 0 (rev cs) []
               ++ derive_lines (node_of cs) (rev cs)).
  set (mid := Raw "skinparam rectangle {"
              :: Raw "   BackgroundColor #FDF6E3" :: Raw "}" :: rest).
  assert (preamble ++ node_lines 0 (rev cs) []
          ++ derive_lines (node_of cs) (rev cs) ++ [Raw "@enduml"]
          = Raw "@startuml" :: (mid ++ [Raw "@enduml"])) as ->.
  { unfold mid, rest, preamble. simpl. by rewrite <-!app_assoc. }
  exists (PyStr.join nl (render <$> mid)).
  rewrite fmap_cons, fmap_app.
  change (render <$> [Raw "@enduml"]) with ["@enduml"].
  change (render (Raw "@startuml")) with "@startuml".
  by rewrite join_first_last.
Qed.

(** X6.  The file node declarations of the output are one for each
    distinct path of the file lists, in the order in which the first
    loop meets the paths, numbered [File1], [File2], ... *)
Theorem file_nodes_in_first_seen_order (cs : list Commit) :
  ∃ st : BuildState dict,
    build_state cs = Ok st
    ∧ filter is_file_decl (graph st)
      = imap (λ i f, FileDecl f (file_name (i + 1))) (first_seen cs)
    ∧ NoDup (first_seen cs)
    ∧ ∀ f, f ∈ first_seen cs ↔ ∃ c, c ∈ cs ∧ f ∈ files c.
Proof.
  destruct (build_state_spec (D:=dict) cs) as (st & Hrun & Hg & _ & _).
  exists st. split_and!; [done|by apply graph_file_decls| |].
  - apply NoDup_see_all. constructor.
  - intros f. unfold first_seen.
    rewrite elem_of_see_all, elem_of_all_files_rev, elem_of_all_files.
    rewrite elem_of_nil. tauto.
Qed.

(** X7.  The touched edges of the output are one for each entry of a
    file list: record by record in visiting order (the reverse of the
    input), within a record in the order of its file list, each from the
    node of the record to the node of the path.  Their number is the
    total number of entries of the file lists. *)
Theorem touched_edges_in_order (cs : list Commit) :
  ∃ st : BuildState dict,
    build_state cs = Ok st
    ∧ filter is_touched (graph st) = touched_of cs
    ∧ length (filter is_touched (graph st)) = length (all_files cs).
Proof.
  destruct (build_state_spec (D:=dict) cs) as (st & Hrun & Hg & _ & _).
  exists st. rewrite (graph_touched _ cs Hg).
  split_and!; [done|done|apply length_touched_of].
Qed.

(** X8.  No identifier is declared twice: the identifiers of the commit
    and file node declarations of the output are pairwise distinct. *)
Theorem node_identifiers_unique (cs : list Commit) :
  ∃ st : BuildState dict,
    build_state cs = Ok st ∧ NoDup (omap decl_id (graph st)).
Proof.
  destruct (build_state_spec (D:=dict) cs) as (st & Hrun & Hg & _ & _).
  exists st. split; [done|]. rewrite decl_ids_split.
  rewrite (graph_commit_decls _ cs Hg), (graph_file_decls _ cs Hg).
  rewrite (decl_ids_imap (λ c id, CommitDecl (message c) id)
             (λ j, commit_name (j + 1))) by done.
  rewrite (decl_ids_imap (λ f id, FileDecl f id)
             (λ j, file_name (j + 1))) by done.
  apply NoDup_app. split_and!.
  - apply NoDup_imap_names. intros i j Heq%commit_name_inj. lia.
  - intros x [i ->]%elem_of_imap_names [j Hj]%elem_of_imap_names.
    by apply commit_name_not_file_name in Hj.
  - apply NoDup_imap_names. intros i j Heq%file_name_inj. lia.
Qed.

(** X9.  In the output every edge comes after the declarations of both
    its ends: going through the lines in order, each touched or derives
    edge joins two identifiers that earlier lines have declared. *)
Theorem edges_after_declarations (cs : list Commit) :
  ∃ (st : BuildState dict) (declared : list string),
    build_state cs = Ok st ∧ scope_check [] (graph st) = Some declared.
Proof.
  destruct (build_state_spec (D:=dict) cs) as (st & Hrun & Hg & _ & _).
  destruct (scope_check_node_lines 0 (rev cs) [] []) as (d & Hn & _ & Hd).
  { intros f i Hi. done. }
  exists st, d. split; [done|].
  rewrite Hg, scope_check_app.
  change (scope_check [] preamble) with (Some (@nil string)).
  rewrite some_bind. cbv beta. rewrite scope_check_app, Hn, some_bind.
  cbv beta. rewrite scope_check_app, scope_check_derive_lines; [done|].
  intros h id. unfold node_of. intros (i & Hi & ->)%fmap_Some.
  apply first_index_lt in Hi. unfold node_at.
  replace (length cs - i) with (0 + (length cs - i - 1) + 1) by lia.
  apply Hd. rewrite length_rev. lia.
Qed.

(** X10.  When no two records have the same hash, the hash of each
    record resolves to the identifier with which that very record is
    declared. *)
Theorem unique_hash_own_node (cs : list Commit) (i : nat) (c : Commit) :
  NoDup (hash <$> cs) → cs !! i = Some c →
  ∃ st : BuildState dict,
    build_state cs = Ok st
    ∧ d_get (hash c) (commit_defs st) = Some (node_at cs i)
    ∧ CommitDecl (message c) (node_at cs i) ∈ graph st.
Proof.
  intros Hnd Hi.
  destruct (build_state_edges cs) as (st & Hrun & _ & Hcd & _ & Hdecl).
  exists st. split_and!; [done| |by apply Hdecl].
  rewrite Hcd. unfold node_of. by rewrite (first_index_NoDup cs i c).
Qed.

Lemma unique_hash_own_node_witness :
  ∃ st : BuildState dict,
    build_state scenario_commits = Ok st
    ∧ d_get "a1" (commit_defs st) = Some (node_at scenario_commits 0)
    ∧ CommitDecl "Initial commit" (node_at scenario_commits 0) ∈ graph st.
Proof.
  refine (unique_hash_own_node scenario_commits 0
    (mkCommit "a1" "Initial commit" [] ["file1.txt"]) _ _).
  - apply (bool_decide_unpack _). by vm_compute.
  - reflexivity.
Defined.

(** X11.  The whole run, from the text of the log to the text that is
    written: when the parser raises, the run raises [TypeError] and
    nothing else; otherwise the run returns the text of a graph that has
    one commit node declaration for each line of the log that holds a
    separator and one touched edge for each non-empty line that does
    not. *)
Theorem run_outcome (stdout : string) :
  match get_commits stdout with
  | Raise e => e = TypeError ∧ run (D:=dict) stdout = Raise TypeError
  | Ok cs =>
      ∃ st : BuildState dict,
        build_state cs = Ok st
        ∧ run (D:=dict) stdout = Ok (PyStr.join nl (render <$> graph st))
        ∧ length (filter is_commit_decl (graph st))
          = length (header_lines (log_lines stdout))
        ∧ length (filter is_touched (graph st))
          = length (path_lines (log_lines stdout))
  end.
Proof.
  unfold run. pose proof (get_commits_cases stdout) as Hcases.
  destruct (get_commits stdout) as [cs|e] eqn:Hget; simpl.
  - destruct (get_commits_spec _ _ Hget) as [Hh Hf].
    destruct (build_state_spec (D:=dict) cs) as (st & Hrun & Hg & _ & _).
    exists st. unfold build_graph. rewrite Hrun. simpl.
    split_and!; [done|done| |].
    + rewrite (graph_commit_decls _ cs Hg), length_imap, length_rev.
      by apply Forall2_length in Hh.
    + rewrite (graph_touched _ cs Hg), length_touched_of, Hf.
      by rewrite length_fmap.
  - destruct (filter _ _) as [|l ne]; [done|].
    destruct (PyStr.contains bar l).
    + by destruct Hcases as (cs & ? & _).
    + by injection Hcases as ->.
Qed.
